(** * keyword-notifier: the source-aggregation and deduplication pipeline

    A shallow embedding of the fetchers of keyword-notifier:
    - [Base]          src/src/fetcher/base.rs      (trait [Fetcher]: [run], [run_in_loop])
    - [Twitter]       src/src/fetcher/twitter.rs   ([fetch], [spawn_fetcher])
    - [StackOverflow] src/src/fetcher/stackoverflow.rs
    - [FetcherTwitter] src/fetcher-twitter/src/main.rs
    - [Main]          src/src/main.rs              (the storeless Slack variant)

    The MySQL table [shareables] is a list of rows in insertion order;
    [exec_batch] runs one statement per row, as the mysql crate does. *)

From Stdlib Require Import String ZArith Bool List Lia.
From stdpp Require Import base gmap strings list.

Import ListNotations.
Open Scope string_scope.

(** ** Rust's [Result] *)
Inductive result (A E : Type) : Type :=
| Ok (a : A)
| Err (e : E).
Arguments Ok {A E} a.
Arguments Err {A E} e.

(** ** String helpers: [str::contains] and [str::starts_with] *)
Fixpoint contains (hay needle : string) : bool :=
  String.prefix needle hay ||
  match hay with
  | EmptyString => false
  | String _ rest => contains rest needle
  end.

Definition starts_with (s p : string) : bool := String.prefix p s.

(** ** The stored item: [Shareable] (identical in every fetcher file) *)
Module Store.

Record Shareable := mkShareable {
  id : string;
  title : string;
  date : string;
  url : string;
  source : string
}.

(** The [shareables] table, rows in insertion order. *)
Definition DB := list Shareable.

Definition ids (db : DB) : list string := map id db.

Definition known (k : string) (known_ids : list string) : bool :=
  existsb (String.eqb k) known_ids.

(** [mysql::Error] as far as the pipeline sees it: the connection failed
    (an I/O or driver error), the server refused the statement for another
    reason than a duplicate key (a missing table, a lock wait timeout, a
    deadlock, a value a column refuses, ...), or the server's duplicate-key
    error on [id]. *)
Inductive StoreError :=
| TransportError
| ServerError
| DuplicateKey (k : string).

(** What happens to one statement sent on the connection, apart from what
    the table's key on [id] decides: it runs, the connection fails, or the
    server refuses it. *)
Inductive Fault := NoFault | Transport | Server.

Definition fault_error (f : Fault) : option StoreError :=
  match f with
  | NoFault => None
  | Transport => Some TransportError
  | Server => Some ServerError
  end.

Inductive Stmt := InsertPlain | InsertIgnore.

(** Modelled from the spec: the [shareables] table's key on [id] (the
    schema is not under src/). §6: an [upsert_ignore] of an item whose
    [id] already exists silently skips it, and base.rs relies on it
    ("MYSQL will find the duplicates and ignore them"); a plain INSERT of
    an existing key is refused with a duplicate-key error. [f] is what
    else happens to this statement. *)
Definition exec_row (s : Stmt) (f : Fault) (p : Shareable) (db : DB)
  : result DB StoreError :=
  match fault_error f with
  | Some e => Err e
  | None =>
      if known (id p) (ids db) then
        match s with
        | InsertPlain => Err (DuplicateKey (id p))
        | InsertIgnore => Ok db
        end
      else Ok (db ++ [p])%list
  end.

(** The rows of [conn.exec_batch(stmt, params)]: one [exec_drop] per row,
    in order, stopping at the first error ([?] inside the loop); rows
    already executed stay (autocommit, no transaction). [fault i] is what
    happens to the statement numbered [i]. *)
Fixpoint exec_batch_from (s : Stmt) (fault : nat -> Fault) (i : nat)
  (rows : list Shareable) (db : DB) : DB * result unit StoreError :=
  match rows with
  | [] => (db, Ok tt)
  | p :: rest =>
      match exec_row s (fault i) p db with
      | Err e => (db, Err e)
      | Ok db' => exec_batch_from s fault (S i) rest db'
      end
  end.

(** [conn.exec_batch(stmt, params)]: [stmt.as_statement(self)?] first
    prepares the statement, even for an empty batch, then the rows run.
    Statement 0 is the PREPARE, statement [S i] the [i]-th row. *)
Definition exec_batch (s : Stmt) (fault : nat -> Fault) (rows : list Shareable)
  (db : DB) : DB * result unit StoreError :=
  match fault_error (fault 0) with
  | Some e => (db, Err e)
  | None => exec_batch_from s fault 1 rows db
  end.

Definition no_fault : nat -> Fault := fun _ => NoFault.

End Store.

Import Store.

(** ** [iter().for_each(|item| ...)] pushing into a [Vec]

    One step of the closure: skip the item, push a value, or panic. *)
Inductive step (B : Type) : Type :=
| Skip
| Push (b : B)
| Panic.
Arguments Skip {B}.
Arguments Push {B} b.
Arguments Panic {B}.

Fixpoint for_each_push {A B} (f : A -> step B) (xs : list A) : option (list B) :=
  match xs with
  | [] => Some []
  | x :: rest =>
      match f x with
      | Skip => for_each_push f rest
      | Push b => option_map (cons b) (for_each_push f rest)
      | Panic => None
      end
  end.

(** ** The upstream search APIs

    An upstream is what the provider answers for a query and an optional
    continuation token: a page of raw items and the page's own
    continuation token, if any; a failed request or an undecodable body is
    an [Err] (reqwest's error rendered to a [String]). *)
Definition Upstream (R : Type) :=
  string -> option string -> result (list R * option string) string.

(** ** src/src/fetcher/twitter.rs *)
Module Twitter.

Record TwitterResponseItem := mkItem {
  id : string;
  text : string;
  created_at : string
}.

Record TwitterResponse := mkResponse { data : list TwitterResponseItem }.

(** [fetch_twitter_api(token, query)]: one GET, no pagination token in
    the URL; serde keeps [data] and drops the body's [meta.next_token]. *)
Definition fetch_twitter_api (api : Upstream TwitterResponseItem) (query : string)
  : result TwitterResponse string :=
  match api query None with
  | Ok (page, _next_token) => Ok {| data := page |}
  | Err e => Err e
  end.

(** The body of the [for_each] closure in [fetch]. *)
Definition filter_item (known_shareables : list string) (item : TwitterResponseItem)
  : step Shareable :=
  let item_id := "twitter-" ++ id item in
  if contains (text item) "RT" then Skip
  else if negb (known item_id known_shareables) then
    Push {| Store.id := item_id;
            title := text item;
            date := created_at item;
            url := "https://twitter.com/twitter/status/" ++ id item;
            source := "twitter" |}
  else Skip.

(** [fetch(conn, bearer, keyword) -> mysql::Result<()>]. [select] is
    what happens to [SELECT id from shareables], whose [?] returns its
    error. *)
Definition fetch (select : Fault) (api : Upstream TwitterResponseItem)
  (keyword : string) (fault : nat -> Fault) (db : DB)
  : DB * result unit StoreError :=
  match fault_error select with
  | Some e => (db, Err e)
  | None =>
      let known_shareables := ids db in
      match fetch_twitter_api api keyword with
      | Err _ => (db, Ok tt)
      | Ok resp =>
          (* the closure never panics: the [None] arm is not reached *)
          let shareables :=
            match for_each_push (filter_item known_shareables) (data resp) with
            | Some l => l
            | None => []
            end in
          exec_batch InsertPlain fault shareables db
      end
  end.

End Twitter.

(** ** chrono: [Utc.timestamp(secs, 0)] and [Date<Utc>]'s [Display] *)
Module Chrono.

Open Scope Z_scope.

(** The chrono release the binary links: src/ has no Cargo.toml or
    Cargo.lock, so none is pinned. [NaiveDate]'s year range is
    [i32::MIN >> 13 ..= i32::MAX >> 13] up to chrono 0.4.19; from 0.4.20
    on it is one year narrower at each end. *)
Inductive version := Upto_0_4_19 | From_0_4_20.

Definition MIN_YEAR (v : version) : Z :=
  match v with Upto_0_4_19 => -262144 | From_0_4_20 => -262143 end.

Definition MAX_YEAR (v : version) : Z :=
  match v with Upto_0_4_19 => 262143 | From_0_4_20 => 262142 end.

(** Proleptic Gregorian (year, month, day) of a day count from 1970-01-01. *)
Definition civil_from_days (days : Z) : Z * Z * Z :=
  let z := days + 719468 in
  let era := z / 146097 in
  let doe := z - era * 146097 in
  let yoe := (doe - doe / 1460 + doe / 36524 - doe / 146096) / 365 in
  let y := yoe + era * 400 in
  let doy := doe - (365 * yoe + yoe / 4 - yoe / 100) in
  let mp := (5 * doy + 2) / 153 in
  let d := doy - (153 * mp + 2) / 5 + 1 in
  let m := if mp <? 10 then mp + 3 else mp - 9 in
  ((if m <=? 2 then y + 1 else y), m, d).

(** [NaiveDateTime::from_timestamp_opt(secs, 0)], keeping the date: the
    day is [secs.div_euclid(86_400)]; out of the year range it is [None],
    and [Utc.timestamp] then panics. *)
Definition timestamp_opt (v : version) (secs : Z) : option (Z * Z * Z) :=
  let '(y, m, d) := civil_from_days (secs / 86400) in
  if (MIN_YEAR v <=? y) && (y <=? MAX_YEAR v) then Some (y, m, d) else None.

Fixpoint digits_aux (fuel : nat) (n : Z) (acc : string) : string :=
  match fuel with
  | O => acc
  | S f =>
      let acc' := String (Ascii.ascii_of_nat (48 + Z.to_nat (n mod 10))) acc in
      if n <? 10 then acc' else digits_aux f (n / 10) acc'
  end.

(** Decimal digits of a non-negative number. *)
Definition digits (n : Z) : string := digits_aux 24 n "".

Fixpoint zeros (k : nat) : string :=
  match k with O => "" | S k' => String (Ascii.ascii_of_nat 48) (zeros k') end.

(** Zero-padded to at least [w] characters. *)
Definition pad (w : nat) (s : string) : string :=
  zeros (w - String.length s) ++ s.

(** [NaiveDate]'s [Debug]: [YYYY-MM-DD], or [{:+05}] for the year
    outside [0..=9999]. *)
Definition naive_date_debug (ymd : Z * Z * Z) : string :=
  let '(y, m, d) := ymd in
  let ys := if (0 <=? y) && (y <=? 9999) then pad 4 (digits y)
            else (if y <? 0 then "-" else "+") ++ pad 4 (digits (Z.abs y)) in
  ys ++ "-" ++ pad 2 (digits m) ++ "-" ++ pad 2 (digits d).

(** [date.date().to_string()] for a [Date<Utc>]: the naive date then the
    offset's [Display], ["UTC"]. *)
Definition date_to_string (ymd : Z * Z * Z) : string :=
  naive_date_debug ymd ++ "UTC".

End Chrono.

(** ** src/src/fetcher/stackoverflow.rs *)
Module StackOverflow.

Record StackOverflowQuestion := mkQuestion {
  is_answered : bool;
  link : string;
  title : string;
  answer_count : Z;
  creation_date : Z
}.

Record StackOverflowResponse := mkResponse { items : list StackOverflowQuestion }.

(** [fetch_stackoverflow_api(query)]: one GET ("TODO: walk through
    pagination if needed"). *)
Definition fetch_stackoverflow_api (api : Upstream StackOverflowQuestion)
  (query : string) : result StackOverflowResponse string :=
  match api query None with
  | Ok (page, _more) => Ok {| items := page |}
  | Err e => Err e
  end.

Definition state (item : StackOverflowQuestion) : string :=
  if is_answered item then ":white_check_mark:"
  else if (0 <? answer_count item)%Z then ":waiting-spin:"
  else ":question:".

(** The body of the [for_each] closure in [fetch]; [Utc.timestamp]
    panics out of chrono's range. *)
Definition filter_item (v : Chrono.version) (known_shareables : list string)
  (item : StackOverflowQuestion) : step Shareable :=
  let item_id := "stackoverflow-" ++ link item in
  if negb (known item_id known_shareables) then
    match Chrono.timestamp_opt v (creation_date item) with
    | None => Panic
    | Some date =>
        Push {| Store.id := item_id;
                Store.title := state item ++ " - " ++ title item;
                Store.date := Chrono.date_to_string date;
                Store.url := link item;
                Store.source := "stackoverflow" |}
    end
  else Skip.

(** [fetch(conn, keyword) -> mysql::Result<()>] linked against chrono
    [v]; [None] is a panic in the closure (before any write). *)
Definition fetch (v : Chrono.version) (select : Fault) (api : Upstream StackOverflowQuestion)
  (keyword : string) (fault : nat -> Fault) (db : DB)
  : option (DB * result unit StoreError) :=
  match fault_error select with
  | Some e => Some (db, Err e)
  | None =>
      let known_shareables := ids db in
      match fetch_stackoverflow_api api keyword with
      | Err _ => Some (db, Ok tt)
      | Ok resp =>
          match for_each_push (filter_item v known_shareables) (items resp) with
          | None => None
          | Some shareables => Some (exec_batch InsertPlain fault shareables db)
          end
      end
  end.

End StackOverflow.

(** ** src/fetcher-twitter/src/main.rs: the standalone Twitter fetcher *)
Module FetcherTwitter.

Import Twitter.

(** The body of the [for_each] closure: no retweet rule here. *)
Definition filter_item (known_shareables : list string) (item : TwitterResponseItem)
  : step Shareable :=
  let item_id := "twitter-" ++ Twitter.id item in
  if negb (known item_id known_shareables) then
    Push {| Store.id := item_id;
            Store.title := text item;
            Store.date := created_at item;
            Store.url := "https://twitter.com/twitter/status/" ++ Twitter.id item;
            Store.source := "twitter" |}
  else Skip.

Definition fetch (select : Fault) (api : Upstream TwitterResponseItem)
  (keyword : string) (fault : nat -> Fault) (db : DB)
  : DB * result unit StoreError :=
  match fault_error select with
  | Some e => (db, Err e)
  | None =>
      let known_shareables := ids db in
      match fetch_twitter_api api keyword with
      | Err _ => (db, Ok tt)
      | Ok resp =>
          let shareables :=
            match for_each_push (filter_item known_shareables) (data resp) with
            | Some l => l
            | None => []
            end in
          exec_batch InsertPlain fault shareables db
      end
  end.

End FetcherTwitter.

(** ** The per-source scheduler loop

    [loop { let conn = pool.get_conn().expect(..); let res = cycle(conn).await;
            match res { Ok(_) => info!(..), Err(e) => error!(..) }
            interval.tick().await; }]
    run for [fuel] iterations. [get_conn k] is whether the pool hands out
    a connection at iteration [k]; [.expect] panics otherwise and the
    spawned task ends. The cycle of iteration [k] runs on the state left
    by iteration [k - 1]. *)
Inductive Event (R : Type) : Type :=
| Cycle (r : R)
| Tick.
Arguments Cycle {R} r.
Arguments Tick {R}.

Inductive LoopStatus := Looping | Panicked.

Fixpoint loop_from {St R : Type} (fuel k : nat) (get_conn : nat -> bool)
  (cycle : nat -> St -> St * R) (s : St) : list (Event R) * LoopStatus * St :=
  match fuel with
  | O => ([], Looping, s)
  | S f =>
      if negb (get_conn k) then ([], Panicked, s)
      else
        let '(s', r) := cycle k s in
        let '(ev, st, s'') := loop_from f (S k) get_conn cycle s' in
        (Cycle r :: Tick :: ev, st, s'')
  end.

(** ** src/src/fetcher/base.rs: the trait [Fetcher] *)
Module Base.

(** [stringify(err: mysql::Error) -> String]. *)
Definition stringify (e : StoreError) : string :=
  match e with
  | TransportError => "transport error"
  | ServerError => "server error"
  | DuplicateKey k => "Duplicate entry '" ++ k ++ "' for key 'PRIMARY'"
  end.

(** [Fetcher::run]: [fetched] is what the implementor's [self.fetch(keyword)]
    returned (the trait leaves [fetch] abstract). *)
Definition run (fetched : result (list Shareable) string) (fault : nat -> Fault)
  (db : DB) : DB * result unit string :=
  match fetched with
  | Err e => (db, Err e)
  | Ok all_items =>
      let '(db', r) := exec_batch InsertIgnore fault all_items db in
      (db', match r with Ok _ => Ok tt | Err e => Err (stringify e) end)
  end.

(** [Fetcher::run_in_loop]: iteration [k] fetches [fetches k] and writes
    with the store faults [faults k]. *)
Definition run_in_loop (fuel : nat) (get_conn : nat -> bool)
  (fetches : nat -> result (list Shareable) string)
  (faults : nat -> nat -> Fault) (db : DB)
  : list (Event (result unit string)) * LoopStatus * DB :=
  loop_from fuel 0 get_conn (fun k db => run (fetches k) (faults k) db) db.

End Base.

(** [twitter::spawn_fetcher]: the same loop around [twitter::fetch]. *)
Definition twitter_spawn_fetcher (fuel : nat) (get_conn : nat -> bool)
  (selects : nat -> Fault) (apis : nat -> Upstream Twitter.TwitterResponseItem)
  (keyword : string) (faults : nat -> nat -> Fault) (db : DB)
  : list (Event (result unit StoreError)) * LoopStatus * DB :=
  loop_from fuel 0 get_conn
    (fun k db => Twitter.fetch (selects k) (apis k) keyword (faults k) db) db.

(** ** src/src/main.rs: the storeless variant posting to Slack *)
Module Main.

Record TwitterResponseItem := mkTweet { id : string; text : string }.

Record StackOverflowQuestion := mkQuestion {
  is_answered : bool;
  link : string;
  title : string;
  answer_count : Z
}.

(** The [Box<dyn Shareable>] values collected for posting. *)
Inductive Item :=
| Tweet (t : TwitterResponseItem)
| Question (q : StackOverflowQuestion).

Definition cache_key (i : Item) : string :=
  match i with
  | Tweet t => "twitter-" ++ id t
  | Question q => "stack-overflow-" ++ link q
  end.

Definition never_share (i : Item) : bool :=
  match i with
  | Tweet t => contains (text t) "RT" || starts_with (text t) "@"
  | Question _ => false
  end.

Definition item_title (i : Item) : string :=
  match i with Tweet t => text t | Question q => title q end.

Definition item_link (i : Item) : string :=
  match i with
  | Tweet t => "https://twitter.com/twitter/status/" ++ id t
  | Question q => link q
  end.

Definition link_name (i : Item) : string :=
  match i with
  | Tweet _ => ":bird: Twitter"
  | Question q =>
      (if is_answered q then ":white_check_mark:"
       else if (0 <? answer_count q)%Z then ":waiting-spin:"
       else ":question:") ++ " StackOverflow"
  end.

Definition message (i : Item) : string :=
  "<" ++ item_link i ++ "|" ++ link_name i ++ ">: " ++ item_title i.

(** The loop shared by [filter_duplicate_twitter_items] and
    [filter_duplicate_stack_overflow_items], under the write lock: the
    key is added to the cache as soon as the item is kept. *)
Fixpoint filter_duplicate_items (c : gset string) (items : list Item)
  : gset string * list Item :=
  match items with
  | [] => (c, [])
  | item :: rest =>
      if decide (cache_key item ∈ c) then filter_duplicate_items c rest
      else if never_share item then filter_duplicate_items c rest
      else
        let '(c', out) := filter_duplicate_items ({[cache_key item]} ∪ c) rest in
        (c', item :: out)
  end.

Definition filter_duplicate_twitter_items (c : gset string)
  (data : list TwitterResponseItem) : gset string * list Item :=
  filter_duplicate_items c (map Tweet data).

Definition filter_duplicate_stack_overflow_items (c : gset string)
  (items : list StackOverflowQuestion) : gset string * list Item :=
  filter_duplicate_items c (map Question items).

Record Reponse := mkReponse { status : string; posted_items : option Z }.

(** [items_to_post.len() as i32]. *)
Definition as_i32 (n : nat) : Z :=
  let z := (Z.of_nat n mod 2 ^ 32)%Z in
  if (z <? 2 ^ 31)%Z then z else (z - 2 ^ 32)%Z.

(** One turn of [for item in [reponses.0, reponses.1]]: a failed search
    is only logged. *)
Definition collect_twitter (st : gset string * list Item)
  (r : result (list TwitterResponseItem) string) : gset string * list Item :=
  let '(c, acc) := st in
  match r with
  | Ok data =>
      let '(c', out) := filter_duplicate_twitter_items c data in
      (c', (acc ++ out)%list)
  | Err _ => (c, acc)
  end.

(** The collecting part of [root]: the two tweet searches, then the
    StackOverflow search. *)
Definition collect (c : gset string)
  (r0 r1 : result (list TwitterResponseItem) string)
  (r2 : result (list StackOverflowQuestion) string) : gset string * list Item :=
  let '(c, acc) := fold_left collect_twitter [r0; r1] (c, []) in
  match r2 with
  | Ok items =>
      let '(c', out) := filter_duplicate_stack_overflow_items c items in
      (c', (acc ++ out)%list)
  | Err _ => (c, acc)
  end.

Fixpoint join_lines (l : list string) : string :=
  match l with
  | [] => ""
  | [x] => x
  | x :: rest => x ++ String (Ascii.ascii_of_nat 10) (join_lines rest)
  end.

(** [root]: returns the cache after the handler, the JSON response, the
    Slack text and the log line of the POST. [slack_ok] is whether the
    webhook POST succeeded; either way the handler only logs. *)
Definition root (c : gset string)
  (r0 r1 : result (list TwitterResponseItem) string)
  (r2 : result (list StackOverflowQuestion) string) (slack_ok : bool)
  : gset string * Reponse * string * string :=
  let '(c', items_to_post) := collect c r0 r1 r2 in
  let content := map (fun i => "• " ++ message i) items_to_post in
  let text := join_lines content in
  let log := if slack_ok then "ok" else "Error sending slack message" in
  (c', {| status := "ok"; posted_items := Some (as_i32 (length items_to_post)) |},
   text, log).

End Main.

(** ** Sequences of cycles and of single-row statements

    The cycles of every fetcher, as they can follow one another on the one
    [shareables] table, and the single-row statements they reduce to (an
    interleaving of racing cycles is a sequence of such statements; a
    failed statement leaves the table as it was). *)
Inductive cycle :=
| RunCycle (fetched : result (list Shareable) string) (fault : nat -> Fault)
| TwitterCycle (select : Fault) (api : Upstream Twitter.TwitterResponseItem)
    (keyword : string) (fault : nat -> Fault)
| StackOverflowCycle (v : Chrono.version) (select : Fault)
    (api : Upstream StackOverflow.StackOverflowQuestion)
    (keyword : string) (fault : nat -> Fault)
| FetcherTwitterCycle (select : Fault) (api : Upstream Twitter.TwitterResponseItem)
    (keyword : string) (fault : nat -> Fault).

Definition run_cycle (c : cycle) (db : DB) : DB :=
  match c with
  | RunCycle fetched fault => fst (Base.run fetched fault db)
  | TwitterCycle ok api kw fault => fst (Twitter.fetch ok api kw fault db)
  | StackOverflowCycle v ok api kw fault =>
      match StackOverflow.fetch v ok api kw fault db with
      | Some (db', _) => db'
      | None => db
      end
  | FetcherTwitterCycle ok api kw fault => fst (FetcherTwitter.fetch ok api kw fault db)
  end.

Fixpoint run_cycles (cs : list cycle) (db : DB) : DB :=
  match cs with
  | [] => db
  | c :: rest => run_cycles rest (run_cycle c db)
  end.

Fixpoint run_rows (ops : list (Stmt * Fault * Shareable)) (db : DB) : DB :=
  match ops with
  | [] => db
  | (s, failed, p) :: rest =>
      run_rows rest (match exec_row s failed p db with Ok db' => db' | Err _ => db end)
  end.

(** ** The Pagination Driver as the spec words it

    Not a translation of the code (which has no pagination): §4.3's
    driver, to compare the fetchers with. Start with no cursor, feed each
    response's continuation token into the next call, stop when a
    response has none or after [ceiling] pages, and concatenate the
    normalized items in page order. *)
Fixpoint paginate_spec {R B : Type} (ceiling : nat) (api : Upstream R) (q : string)
  (cursor : option string) (normalize : R -> option B) : result (list B) string :=
  match ceiling with
  | O => Ok []
  | S c =>
      match api q cursor with
      | Err e => Err e
      | Ok (page, next) =>
          let here := flat_map (fun r => match normalize r with
                                         | Some b => [b]
                                         | None => []
                                         end) page in
          match next with
          | None => Ok here
          | Some t =>
              match paginate_spec c api q (Some t) normalize with
              | Ok rest => Ok (here ++ rest)%list
              | Err e => Err e
              end
          end
      end
  end.

(** The normalization step of twitter.rs alone (no known identifiers). *)
Definition twitter_normalize (x : Twitter.TwitterResponseItem) : option Shareable :=
  match Twitter.filter_item [] x with Push p => Some p | _ => None end.

(** The items of the first response, without its continuation token. *)
Definition page_items {R : Type} (r : result (list R * option string) string)
  : result (list R) string :=
  match r with Ok (page, _) => Ok page | Err e => Err e end.

(** [n] cycles run one after the other, each on the state the previous
    one left: the reference the scheduler loop is compared with. *)
Fixpoint sequential_cycles {St R : Type} (n k : nat) (cycle : nat -> St -> St * R)
  (s : St) : list R * St :=
  match n with
  | O => ([], s)
  | S f =>
      let '(s', r) := cycle k s in
      let '(rs, s'') := sequential_cycles f (S k) cycle s' in
      (r :: rs, s'')
  end.

(** ** Rust's [str::replace] for a non-empty pattern

    The leftmost non-overlapping matches, scanned from the start, each
    replaced by [to]; [skip] counts the characters of the last match still
    to be dropped. (Every pattern replaced in this repository is a
    non-empty literal.) *)
Fixpoint replace_from (from to : string) (skip : nat) (s : string) : string :=
  match s with
  | EmptyString => EmptyString
  | String c rest =>
      match skip with
      | S k => replace_from from to k rest
      | O =>
          if String.prefix from s
          then to ++ replace_from from to (String.length from - 1) rest
          else String c (replace_from from to 0 rest)
      end
  end.

Definition replace (s from to : string) : string := replace_from from to 0 s.

(** ** src/src/routes/root.rs: the page listing the stored shareables

    The askama templates are not under src/: a rendered page is kept as
    the values handed to [IndexTemplate] or [ErrorTemplate]. *)
Module Routes.

Definition quote : string := String (Ascii.ascii_of_nat 34) EmptyString.

(** The [format!] of each list entry: the url inside the [href] quotes,
    then the title; neither is escaped. *)
Definition li (url title : string) : string :=
  "<li><a href=" ++ quote ++ url ++ quote ++ ">" ++ title ++ "</a></li>".

(** The three [.replace] calls on a StackOverflow title. *)
Definition stackoverflow_title (title : string) : string :=
  replace (replace (replace title ":question:" "❓") ":white_check_mark:" "✅")
    ":waiting-spin:" "🔄".

(** [.filter(source == "twitter").map(li).collect().join("")]. *)
Definition twitter_items (shareables : list Shareable) : string :=
  String.concat ""
    (map (fun p => li (url p) (title p))
       (List.filter (fun p => String.eqb (source p) "twitter") shareables)).

Definition stackoverflow_items (shareables : list Shareable) : string :=
  String.concat ""
    (map (fun p => li (url p) (stackoverflow_title (title p)))
       (List.filter (fun p => String.eqb (source p) "stackoverflow") shareables)).

Inductive Page :=
| IndexPage (twitter_items stackoverflow_items : string)
| ErrorPage (message : string).

(** [root] from the query on: [query_result] is the [SELECT id, title,
    url, date, source from shareables] (rows in table order, or the error
    rendered). The [pool.get_conn().expect] before it, which panics when
    no connection is available, is not part of this function. *)
Definition root (query_result : result (list Shareable) string) : Page :=
  match query_result with
  | Ok shareables => IndexPage (twitter_items shareables) (stackoverflow_items shareables)
  | Err e => ErrorPage e
  end.

End Routes.

(** ** The loop of [stackoverflow::spawn_fetcher]

    As [loop_from], except that the cycle itself can panic (the
    [Utc.timestamp] of [fetch]'s closure): a panic ends the spawned task
    like a failed [pool.get_conn()]. *)
Fixpoint stackoverflow_loop_from (v : Chrono.version) (fuel k : nat)
  (get_conn : nat -> bool) (selects : nat -> Fault)
  (apis : nat -> Upstream StackOverflow.StackOverflowQuestion) (keyword : string)
  (faults : nat -> nat -> Fault) (db : DB)
  : list (Event (result unit StoreError)) * LoopStatus * DB :=
  match fuel with
  | O => ([], Looping, db)
  | S f =>
      if negb (get_conn k) then ([], Panicked, db)
      else
        match StackOverflow.fetch v (selects k) (apis k) keyword (faults k) db with
        | None => ([], Panicked, db)
        | Some (db', r) =>
            let '(ev, st, db'') :=
              stackoverflow_loop_from v f (S k) get_conn selects apis keyword faults db' in
            (Cycle r :: Tick :: ev, st, db'')
        end
  end.

Definition stackoverflow_spawn_fetcher (v : Chrono.version) (fuel : nat)
  (get_conn : nat -> bool) (selects : nat -> Fault)
  (apis : nat -> Upstream StackOverflow.StackOverflowQuestion) (keyword : string)
  (faults : nat -> nat -> Fault) (db : DB)
  : list (Event (result unit StoreError)) * LoopStatus * DB :=
  stackoverflow_loop_from v fuel 0 get_conn selects apis keyword faults db.

(** ** Concrete inputs *)
Module Samples.

Definition tw (i t : string) : Twitter.TwitterResponseItem :=
  {| Twitter.id := i; Twitter.text := t; Twitter.created_at := "2022-03-01T10:00:00.000Z" |}.

Definition tw_row (i t : string) : Shareable :=
  {| Store.id := "twitter-" ++ i; Store.title := t;
     Store.date := "2022-03-01T10:00:00.000Z";
     Store.url := "https://twitter.com/twitter/status/" ++ i;
     Store.source := "twitter" |}.

(** A search answering two tweets, no continuation token. *)
Definition two_tweets : Upstream Twitter.TwitterResponseItem :=
  fun _ _ => Ok ([tw "1" "hello"; tw "2" "world"], None).

(** A search whose page repeats a tweet. *)
Definition repeated_tweet : Upstream Twitter.TwitterResponseItem :=
  fun _ _ => Ok ([tw "1" "hello"; tw "1" "hello"; tw "2" "world"], None).

(** §8's example: page 1 has three tweets (one a retweet) and the token
    "T1"; page 2, requested with "T1", has two tweets and no token. *)
Definition two_pages : Upstream Twitter.TwitterResponseItem :=
  fun _ cursor =>
    match cursor with
    | None => Ok ([tw "1" "a"; tw "2" "RT @bob: b"; tw "3" "c"], Some "T1")
    | Some _ => Ok ([tw "4" "d"; tw "5" "e"], None)
    end.

(** A page with a retweet and a plain tweet. *)
Definition retweet_page : Upstream Twitter.TwitterResponseItem :=
  fun _ _ => Ok ([tw "1" "RT @alice: hello"; tw "2" "hello"], None).

(** A page with one reply. *)
Definition reply_page : Upstream Twitter.TwitterResponseItem :=
  fun _ _ => Ok ([tw "1" "@bob hi"], None).

Definition empty_page {R : Type} : Upstream R := fun _ _ => Ok ([], None).

Definition failing {R : Type} (e : string) : Upstream R := fun _ _ => Err e.



(** A question with one answer, created on 2022-03-01 (UTC). *)
Definition so_question : StackOverflow.StackOverflowQuestion :=
  {| StackOverflow.is_answered := false;
     StackOverflow.link := "https://stackoverflow.com/questions/2";
     StackOverflow.title := "Why?";
     StackOverflow.answer_count := 1;
     StackOverflow.creation_date := 1646128800 |}.

Definition so_row : Shareable :=
  {| Store.id := "stackoverflow-https://stackoverflow.com/questions/2";
     Store.title := ":waiting-spin: - Why?";
     Store.date := "2022-03-01UTC";
     Store.url := "https://stackoverflow.com/questions/2";
     Store.source := "stackoverflow" |}.

Definition one_question : Upstream StackOverflow.StackOverflowQuestion :=
  fun _ _ => Ok ([so_question], None).

End Samples.

(** A check-then-write closure: what it pushes is absent from the
    snapshot, and against a larger snapshot it can only turn a push or a
    panic into a skip. *)
Definition snapshot_filter {A : Type} (f : list string -> A -> step Shareable) : Prop :=
  (forall k x p, f k x = Push p -> ~ List.In (id p) k) /\
  (forall k k' x, incl k k' -> f k' x <> Skip -> f k x = f k' x).

(** A filtering pass of [Main] from cache [c] to cache [c'] keeping [out]:
    the cache only grows, every kept item's key is in [c'], and none was
    in [c]. *)
Definition marks (c c' : gset string) (out : list Main.Item) : Prop :=
  c ⊆ c' /\ (forall i, List.In i out -> Main.cache_key i ∈ c') /\
  (forall i, List.In i out -> Main.cache_key i ∉ c).

(** A filtering pass of [Main] from cache [c] to cache [c'] posting
    [out]: the new cache is the old one plus the posted keys, no key is
    posted twice, and every posted item was absent from [c] and may be
    shared. *)
Definition posted (c c' : gset string) (out : list Main.Item) : Prop :=
  c' = (list_to_set (map Main.cache_key out) ∪ c) /\ NoDup (map Main.cache_key out) /\
  (forall i, List.In i out -> (Main.cache_key i ∉ c) /\ Main.never_share i = false).

(** ** Lemmas on the store *)
Section StoreLemmas.

Lemma known_true_iff k l : known k l = true <-> List.In k l.
Proof.
  unfold known. rewrite existsb_exists. split.
  - intros [x [Hx Heq]]. apply String.eqb_eq in Heq. subst. exact Hx.
  - intros H. exists k. split; [exact H | apply String.eqb_refl].
Qed.

Lemma known_false_iff k l : known k l = false <-> ~ List.In k l.
Proof.
  rewrite <- known_true_iff. destruct (known k l); split; congruence.
Qed.

Lemma exec_row_ok s f p db db' :
  exec_row s f p db = Ok db' ->
  f = NoFault /\ (db' = db \/ db' = (db ++ [p])%list) /\ List.In (id p) (ids db').
Proof.
  unfold exec_row. destruct f; simpl; try discriminate.
  destruct (known (id p) (ids db)) eqn:E.
  - apply known_true_iff in E. destruct s; [discriminate |].
    intros H; injection H as <-. auto.
  - intros H; injection H as <-. split; [reflexivity | split; [auto |]].
    unfold ids. rewrite map_app. apply in_or_app. right. left. reflexivity.
Qed.

Lemma exec_row_nodup s f p db db' :
  NoDup (ids db) -> exec_row s f p db = Ok db' -> NoDup (ids db').
Proof.
  unfold exec_row. destruct f; simpl; try discriminate.
  destruct (known (id p) (ids db)) eqn:E.
  - destruct s; [discriminate |]. intros H Heq; injection Heq as <-. exact H.
  - intros H Heq; injection Heq as <-. apply known_false_iff in E.
    unfold ids in *. rewrite map_app. simpl.
    apply NoDup_app. split; [exact H | split].
    + intros x Hx Hx'. apply list_elem_of_singleton in Hx'. subst x.
      apply E. apply list_elem_of_In. exact Hx.
    + apply NoDup_singleton.
Qed.

Lemma exec_batch_from_nodup s fault i rows db :
  NoDup (ids db) -> NoDup (ids (fst (exec_batch_from s fault i rows db))).
Proof.
  revert i db. induction rows as [| p rest IH]; intros i db H; simpl; [exact H |].
  destruct (exec_row s (fault i) p db) eqn:E; simpl; [| exact H].
  apply IH. eapply exec_row_nodup; eassumption.
Qed.

Lemma exec_batch_from_extends s fault i rows db :
  exists suf, fst (exec_batch_from s fault i rows db) = (db ++ suf)%list.
Proof.
  revert i db. induction rows as [| p rest IH]; intros i db; simpl.
  - exists []. rewrite app_nil_r. reflexivity.
  - destruct (exec_row s (fault i) p db) eqn:E; simpl.
    + apply exec_row_ok in E as [_ [[-> | ->] _]].
      * apply IH.
      * destruct (IH (S i) (db ++ [p])%list) as [suf Hs]. rewrite Hs.
        exists (p :: suf). rewrite <- app_assoc. reflexivity.
    + exists []. rewrite app_nil_r. reflexivity.
Qed.

Lemma ids_extends db suf k : List.In k (ids db) -> List.In k (ids (db ++ suf)%list).
Proof. unfold ids. rewrite map_app. intros H. apply in_or_app. left. exact H. Qed.

(** A batch that ran to [Ok] leaves every row's [id] in the table. *)
Lemma exec_batch_from_ok_known s fault i rows db db' :
  exec_batch_from s fault i rows db = (db', Ok tt) ->
  forall p, List.In p rows -> List.In (id p) (ids db').
Proof.
  revert i db. induction rows as [| p rest IH]; intros i db H q Hq; [destruct Hq |].
  simpl in H. destruct (exec_row s (fault i) p db) as [db1 |] eqn:E; [| discriminate].
  destruct Hq as [<- | Hq].
  - apply exec_row_ok in E as [_ [_ Hin]].
    destruct (exec_batch_from_extends s fault (S i) rest db1) as [suf Hs].
    rewrite H in Hs. simpl in Hs. subst db'. apply ids_extends. exact Hin.
  - eapply IH; eassumption.
Qed.

Lemma exec_batch_from_nil s fault i db :
  exec_batch_from s fault i [] db = (db, Ok tt).
Proof. reflexivity. Qed.

(** One statement per row, in order, up to the first error: the table
    after the batch is the table after the first [k] rows ran without
    error; the rows from [k] on were never sent. *)
Lemma exec_batch_from_prefix s fault i rows db db' r :
  exec_batch_from s fault i rows db = (db', r) ->
  exists k, k <= length rows /\
    (r = Ok tt -> k = length rows) /\
    (forall e, r = Err e -> k < length rows) /\
    exec_batch_from s no_fault i (firstn k rows) db = (db', Ok tt).
Proof.
  revert i db. induction rows as [| p rest IH]; intros i db H.
  - simpl in H. injection H as <- <-. exists 0. simpl.
    repeat split; auto; intros e He; discriminate.
  - simpl in H. destruct (exec_row s (fault i) p db) as [db1 | e0] eqn:E.
    + destruct (IH (S i) db1 H) as (k & Hk & Hok & Herr & Hrun).
      exists (S k). cbn [firstn exec_batch_from length].
      split; [lia | split; [intros Hr; rewrite (Hok Hr); reflexivity |]].
      split; [intros e He; specialize (Herr e He); lia |].
      pose proof (exec_row_ok _ _ _ _ _ E) as [Hf _].
      assert (E' : exec_row s (no_fault i) p db = Ok db1) by (rewrite <- E, Hf; reflexivity).
      rewrite E'. exact Hrun.
    + injection H as <- <-. exists 0. simpl.
      split; [lia | split; [discriminate | split; [intros; lia | reflexivity]]].
Qed.

Lemma exec_batch_from_appends s fault i rows db :
  exists suf, fst (exec_batch_from s fault i rows db) = (db ++ suf)%list /\ incl suf rows.
Proof.
  revert i db. induction rows as [| p rest IH]; intros i db; simpl.
  - exists []. rewrite app_nil_r. split; [reflexivity | intros x []].
  - destruct (exec_row s (fault i) p db) eqn:E; simpl.
    + apply exec_row_ok in E as [_ [[-> | ->] _]].
      * destruct (IH (S i) db) as (suf & Hs & Hi). exists suf.
        split; [exact Hs | intros x Hx; right; exact (Hi x Hx)].
      * destruct (IH (S i) (db ++ [p])%list) as (suf & Hs & Hi). rewrite Hs.
        exists (p :: suf). split; [rewrite <- app_assoc; reflexivity |].
        intros x [<- | Hx]; [left; reflexivity | right; exact (Hi x Hx)].
    + exists []. rewrite app_nil_r. split; [reflexivity | intros x []].
Qed.

(** The PREPARE of [exec_batch]: when it runs, the rows follow from
    statement 1 on; when it fails, no row is sent. *)
Lemma exec_batch_prepared s fault rows db :
  fault 0 = NoFault -> exec_batch s fault rows db = exec_batch_from s fault 1 rows db.
Proof. intros H. unfold exec_batch. rewrite H. reflexivity. Qed.

Lemma exec_batch_prepare_failed s fault rows db :
  fault 0 <> NoFault ->
  exists e, fault_error (fault 0) = Some e /\ exec_batch s fault rows db = (db, Err e).
Proof.
  intros H. unfold exec_batch.
  destruct (fault 0); [congruence | eexists; split; reflexivity | eexists; split; reflexivity].
Qed.

Lemma exec_batch_nodup s fault rows db :
  NoDup (ids db) -> NoDup (ids (fst (exec_batch s fault rows db))).
Proof.
  intros H. unfold exec_batch.
  destruct (fault_error (fault 0)); [exact H | apply exec_batch_from_nodup, H].
Qed.

Lemma exec_batch_appends s fault rows db :
  exists suf, fst (exec_batch s fault rows db) = (db ++ suf)%list /\ incl suf rows.
Proof.
  unfold exec_batch. destruct (fault_error (fault 0)).
  - exists []. rewrite app_nil_r. split; [reflexivity | intros x []].
  - apply exec_batch_from_appends.
Qed.

Lemma exec_batch_ok_known s fault rows db db' :
  exec_batch s fault rows db = (db', Ok tt) ->
  forall p, List.In p rows -> List.In (id p) (ids db').
Proof.
  unfold exec_batch. destruct (fault_error (fault 0)); [discriminate |].
  apply exec_batch_from_ok_known.
Qed.

End StoreLemmas.

(** ** Lemmas on the filtering closures *)
Section FilterLemmas.

Context {A : Type}.

Lemma for_each_push_in (f : A -> step Shareable) xs l :
  for_each_push f xs = Some l ->
  forall b, List.In b l -> exists x, List.In x xs /\ f x = Push b.
Proof.
  revert l. induction xs as [| x rest IH]; intros l H b Hb; simpl in H.
  - injection H as <-. destruct Hb.
  - destruct (f x) as [| b' |] eqn:E.
    + destruct (IH l H b Hb) as (y & Hy & Hf). exists y. split; [right |]; assumption.
    + destruct (for_each_push f rest) as [l' |] eqn:E'; [| discriminate].
      simpl in H. injection H as <-. destruct Hb as [<- | Hb].
      * exists x. split; [left; reflexivity | exact E].
      * destruct (IH l' eq_refl b Hb) as (y & Hy & Hf). exists y. split; [right |]; assumption.
    + discriminate.
Qed.

Lemma for_each_push_total (f : A -> step Shareable) xs :
  (forall x, f x <> Panic) -> exists l, for_each_push f xs = Some l.
Proof.
  intros Hf. induction xs as [| x rest [l IH]]; simpl; [eauto |].
  destruct (f x) eqn:E.
  - eauto.
  - rewrite IH. simpl. eauto.
  - exfalso. exact (Hf x E).
Qed.

(** The second pass over the same items, against a snapshot holding the
    first pass's output, pushes nothing and does not panic. *)
Lemma for_each_push_second_pass (f : list string -> A -> step Shareable) k0 k1 xs l1 :
  snapshot_filter f -> incl k0 k1 ->
  for_each_push (f k0) xs = Some l1 ->
  (forall p, List.In p l1 -> List.In (id p) k1) ->
  for_each_push (f k1) xs = Some [].
Proof.
  intros [H1 H2] Hinc. revert l1. induction xs as [| x rest IH]; intros l1 H Hl1; [reflexivity |].
  simpl in *. destruct (f k1 x) as [| p |] eqn:E1.
  - destruct (f k0 x) eqn:E0.
    + eapply IH; eassumption.
    + destruct (for_each_push (f k0) rest) as [l' |]; [| discriminate].
      simpl in H. injection H as <-. eapply IH; [reflexivity |].
      intros q Hq. apply Hl1. right. exact Hq.
    + discriminate.
  - exfalso. assert (E0 : f k0 x = Push p) by (rewrite <- E1; apply H2; [exact Hinc | congruence]).
    rewrite E0 in H. destruct (for_each_push (f k0) rest); [| discriminate].
    simpl in H. injection H as <-. apply (H1 k1 x p E1). apply Hl1. left. reflexivity.
  - exfalso. assert (E0 : f k0 x = Panic) by (rewrite <- E1; apply H2; [exact Hinc | congruence]).
    rewrite E0 in H. discriminate.
Qed.

End FilterLemmas.

Lemma twitter_filter_item_snapshot : snapshot_filter Twitter.filter_item.
Proof.
  split.
  - intros k x p. unfold Twitter.filter_item.
    destruct (contains (Twitter.text x) "RT"); [discriminate |].
    destruct (known ("twitter-" ++ Twitter.id x) k) eqn:E; simpl; [discriminate |].
    intros H; injection H as <-. simpl. apply known_false_iff. exact E.
  - intros k k' x Hinc. unfold Twitter.filter_item.
    destruct (contains (Twitter.text x) "RT"); [congruence |].
    destruct (known ("twitter-" ++ Twitter.id x) k') eqn:E; simpl; [congruence |].
    intros _. apply known_false_iff in E.
    assert (E' : known ("twitter-" ++ Twitter.id x) k = false)
      by (apply known_false_iff; intros Hin; apply E, Hinc, Hin).
    rewrite E'. reflexivity.
Qed.

Lemma fetcher_twitter_filter_item_snapshot : snapshot_filter FetcherTwitter.filter_item.
Proof.
  split.
  - intros k x p. unfold FetcherTwitter.filter_item.
    destruct (known ("twitter-" ++ Twitter.id x) k) eqn:E; simpl; [discriminate |].
    intros H; injection H as <-. simpl. apply known_false_iff. exact E.
  - intros k k' x Hinc. unfold FetcherTwitter.filter_item.
    destruct (known ("twitter-" ++ Twitter.id x) k') eqn:E; simpl; [congruence |].
    intros _. apply known_false_iff in E.
    assert (E' : known ("twitter-" ++ Twitter.id x) k = false)
      by (apply known_false_iff; intros Hin; apply E, Hinc, Hin).
    rewrite E'. reflexivity.
Qed.

Lemma stackoverflow_filter_item_snapshot v : snapshot_filter (StackOverflow.filter_item v).
Proof.
  split.
  - intros k x p. unfold StackOverflow.filter_item.
    destruct (known ("stackoverflow-" ++ StackOverflow.link x) k) eqn:E; simpl; [discriminate |].
    destruct (Chrono.timestamp_opt v (StackOverflow.creation_date x)); [| discriminate].
    intros H; injection H as <-. simpl. apply known_false_iff. exact E.
  - intros k k' x Hinc. unfold StackOverflow.filter_item.
    destruct (known ("stackoverflow-" ++ StackOverflow.link x) k') eqn:E; simpl; [congruence |].
    intros _. apply known_false_iff in E.
    assert (E' : known ("stackoverflow-" ++ StackOverflow.link x) k = false)
      by (apply known_false_iff; intros Hin; apply E, Hinc, Hin).
    rewrite E'. reflexivity.
Qed.

Lemma twitter_filter_item_no_panic k x : Twitter.filter_item k x <> Panic.
Proof.
  unfold Twitter.filter_item.
  destruct (contains _ _); [discriminate |]. destruct (negb _); discriminate.
Qed.

Lemma fetcher_twitter_filter_item_no_panic k x : FetcherTwitter.filter_item k x <> Panic.
Proof. unfold FetcherTwitter.filter_item. destruct (negb _); discriminate. Qed.

(** ** Lemmas on the fetch cycles *)
Section CycleLemmas.

Lemma exec_batch_from_all_known_ignore fault i rows db :
  (forall p, List.In p rows -> List.In (id p) (ids db)) ->
  fst (exec_batch_from InsertIgnore fault i rows db) = db.
Proof.
  revert i. induction rows as [| p rest IH]; intros i H; simpl; [reflexivity |].
  unfold exec_row. destruct (fault i); simpl; try reflexivity.
  assert (E : known (id p) (ids db) = true)
    by (apply known_true_iff, H; left; reflexivity).
  rewrite E. apply IH. intros q Hq. apply H. right. exact Hq.
Qed.

Lemma exec_batch_all_known_ignore fault rows db :
  (forall p, List.In p rows -> List.In (id p) (ids db)) ->
  fst (exec_batch InsertIgnore fault rows db) = db.
Proof.
  intros H. unfold exec_batch. destruct (fault_error (fault 0)); [reflexivity |].
  apply exec_batch_from_all_known_ignore, H.
Qed.

Lemma exec_batch_from_plain_ok i rows db db' :
  exec_batch_from InsertPlain no_fault i rows db = (db', Ok tt) -> db' = (db ++ rows)%list.
Proof.
  revert i db. induction rows as [| p rest IH]; intros i db H; simpl in H.
  - injection H as <-. rewrite app_nil_r. reflexivity.
  - unfold exec_row in H. simpl in H.
    destruct (known (id p) (ids db)); [discriminate |].
    rewrite (IH _ _ H). rewrite <- app_assoc. reflexivity.
Qed.

Lemma base_run_nodup fetched fault db :
  NoDup (ids db) -> NoDup (ids (fst (Base.run fetched fault db))).
Proof.
  intros H. unfold Base.run. destruct fetched as [items | e]; [| exact H].
  pose proof (exec_batch_nodup InsertIgnore fault items db H) as Hn.
  destruct (exec_batch InsertIgnore fault items db). exact Hn.
Qed.

Lemma twitter_fetch_nodup ok api kw fault db :
  NoDup (ids db) -> NoDup (ids (fst (Twitter.fetch ok api kw fault db))).
Proof.
  intros H. unfold Twitter.fetch, Twitter.fetch_twitter_api.
  destruct (fault_error ok); [exact H |].
  destruct (api kw None) as [[page nt] | e]; [| exact H].
  apply exec_batch_nodup. exact H.
Qed.

Lemma fetcher_twitter_fetch_nodup ok api kw fault db :
  NoDup (ids db) -> NoDup (ids (fst (FetcherTwitter.fetch ok api kw fault db))).
Proof.
  intros H. unfold FetcherTwitter.fetch, Twitter.fetch_twitter_api.
  destruct (fault_error ok); [exact H |].
  destruct (api kw None) as [[page nt] | e]; [| exact H].
  apply exec_batch_nodup. exact H.
Qed.

Lemma stackoverflow_fetch_nodup v ok api kw fault db db' r :
  NoDup (ids db) -> StackOverflow.fetch v ok api kw fault db = Some (db', r) -> NoDup (ids db').
Proof.
  intros H. unfold StackOverflow.fetch, StackOverflow.fetch_stackoverflow_api.
  destruct (fault_error ok); [intros E; injection E as <- _; exact H |].
  destruct (api kw None) as [[page nt] | e]; [| intros E; injection E as <- _; exact H].
  destruct (for_each_push _ _) as [l |]; [| discriminate].
  intros E; injection E as E. pose proof (exec_batch_nodup InsertPlain fault l db H) as Hn.
  rewrite E in Hn. exact Hn.
Qed.

Lemma run_cycle_nodup c db : NoDup (ids db) -> NoDup (ids (run_cycle c db)).
Proof.
  intros H. destruct c; simpl.
  - apply base_run_nodup. exact H.
  - apply twitter_fetch_nodup. exact H.
  - destruct (StackOverflow.fetch _ _ _ _ _ db) as [[db' r] |] eqn:E; [| exact H].
    eapply stackoverflow_fetch_nodup; eassumption.
  - apply fetcher_twitter_fetch_nodup. exact H.
Qed.

Lemma incl_ids_extends db suf : incl (ids db) (ids (db ++ suf)%list).
Proof. intros k Hk. apply ids_extends. exact Hk. Qed.

(** The check-then-write shape shared by the three [fetch] functions:
    after a first batch that ran to [Ok], the second pass over the same
    page pushes nothing. *)
Lemma check_then_write_second_pass {A : Type} (f : list string -> A -> step Shareable)
  fault db db1 page l :
  snapshot_filter f ->
  for_each_push (f (ids db)) page = Some l ->
  exec_batch InsertPlain fault l db = (db1, Ok tt) ->
  for_each_push (f (ids db1)) page = Some [].
Proof.
  intros Hs Hl Hb. eapply for_each_push_second_pass; [exact Hs | | exact Hl |].
  - destruct (exec_batch_appends InsertPlain fault l db) as [suf [Hsuf _]].
    rewrite Hb in Hsuf. simpl in Hsuf. subst db1. apply incl_ids_extends.
  - eapply exec_batch_ok_known. exact Hb.
Qed.

End CycleLemmas.

(** C1. The store never holds two rows with the same [id]: every cycle of
    every fetcher (INSERT IGNORE in [Fetcher::run], plain INSERT in the
    check-then-write [fetch] functions), in any sequence, and any
    interleaving of their single-row statements (racing cycles), keeps the
    [id]s of [shareables] duplicate-free; and the check-then-write batches
    hold only items whose [id] was absent from the snapshot read at the
    start of the cycle. *)
Theorem store_ids_never_duplicated :
  (forall cs db, NoDup (ids db) -> NoDup (ids (run_cycles cs db))) /\
  (forall ops db, NoDup (ids db) -> NoDup (ids (run_rows ops db))) /\
  (forall snapshot page l, for_each_push (Twitter.filter_item snapshot) page = Some l ->
     forall p, List.In p l -> ~ List.In (id p) snapshot) /\
  (forall v snapshot page l, for_each_push (StackOverflow.filter_item v snapshot) page = Some l ->
     forall p, List.In p l -> ~ List.In (id p) snapshot) /\
  (forall snapshot page l, for_each_push (FetcherTwitter.filter_item snapshot) page = Some l ->
     forall p, List.In p l -> ~ List.In (id p) snapshot).
Proof.
  split; [| split; [| split; [| split]]].
  - intros cs. induction cs as [| c rest IH]; intros db H; simpl; [exact H |].
    apply IH, run_cycle_nodup, H.
  - intros ops. induction ops as [| [[s failed] p] rest IH]; intros db H; simpl; [exact H |].
    apply IH. destruct (exec_row s failed p db) eqn:E; [| exact H].
    eapply exec_row_nodup; eassumption.
  - intros snapshot page l Hl p Hp.
    destruct (for_each_push_in _ _ _ Hl p Hp) as (x & _ & Hx).
    exact (proj1 twitter_filter_item_snapshot _ _ _ Hx).
  - intros v snapshot page l Hl p Hp.
    destruct (for_each_push_in _ _ _ Hl p Hp) as (x & _ & Hx).
    exact (proj1 (stackoverflow_filter_item_snapshot v) _ _ _ Hx).
  - intros snapshot page l Hl p Hp.
    destruct (for_each_push_in _ _ _ Hl p Hp) as (x & _ & Hx).
    exact (proj1 fetcher_twitter_filter_item_snapshot _ _ _ Hx).
Qed.

(** C2 (as amended). After a cycle that ended in [Ok] (its batch write
    raised no error), running the same cycle again with the same upstream
    answer persists nothing: [Fetcher::run]'s INSERT IGNORE skips every
    item, and the check-then-write [fetch] functions push nothing past the
    snapshot that now holds the first batch. *)
Theorem second_cycle_after_ok_writes_nothing :
  (forall fetched f1 f2 db db1,
     Base.run fetched f1 db = (db1, Ok tt) -> fst (Base.run fetched f2 db1) = db1) /\
  (forall ok1 ok2 api kw f1 f2 db db1,
     Twitter.fetch ok1 api kw f1 db = (db1, Ok tt) ->
     fst (Twitter.fetch ok2 api kw f2 db1) = db1) /\
  (forall v ok1 ok2 api kw f1 f2 db db1,
     StackOverflow.fetch v ok1 api kw f1 db = Some (db1, Ok tt) ->
     exists r, StackOverflow.fetch v ok2 api kw f2 db1 = Some (db1, r)) /\
  (forall ok1 ok2 api kw f1 f2 db db1,
     FetcherTwitter.fetch ok1 api kw f1 db = (db1, Ok tt) ->
     fst (FetcherTwitter.fetch ok2 api kw f2 db1) = db1).
Proof.
  split; [| split; [| split]].
  - intros fetched f1 f2 db db1 H. destruct fetched as [items | e]; [| discriminate].
    unfold Base.run in *.
    destruct (exec_batch InsertIgnore f1 items db) as [db' [u | e]] eqn:E; [| discriminate].
    destruct u. injection H as <-.
    pose proof (exec_batch_all_known_ignore f2 items db' (exec_batch_ok_known _ _ _ _ _ E)) as Hk.
    destruct (exec_batch InsertIgnore f2 items db'). exact Hk.
  - intros ok1 ok2 api kw f1 f2 db db1 H.
    unfold Twitter.fetch, Twitter.fetch_twitter_api in *.
    destruct (fault_error ok1); [discriminate |].
    destruct (api kw None) as [[page nt] | e]; simpl in H.
    + destruct (for_each_push_total (Twitter.filter_item (ids db)) page
                  (twitter_filter_item_no_panic _)) as [l Hl].
      rewrite Hl in H.
      destruct (fault_error ok2); [reflexivity |]. simpl.
      rewrite (check_then_write_second_pass _ _ _ _ _ _ twitter_filter_item_snapshot Hl H).
      unfold exec_batch. destruct (fault_error (f2 0)); reflexivity.
    + injection H as <-. destruct (fault_error ok2); reflexivity.
  - intros v ok1 ok2 api kw f1 f2 db db1 H.
    unfold StackOverflow.fetch, StackOverflow.fetch_stackoverflow_api in *.
    destruct (fault_error ok1); [discriminate |].
    destruct (api kw None) as [[page nt] | e]; simpl in H.
    + destruct (for_each_push (StackOverflow.filter_item v (ids db)) page) as [l |] eqn:Hl;
        [| discriminate].
      injection H as H.
      destruct (fault_error ok2); [eauto |]. simpl.
      rewrite (check_then_write_second_pass _ _ _ _ _ _
                 (stackoverflow_filter_item_snapshot v) Hl H).
      unfold exec_batch. destruct (fault_error (f2 0)); eauto.
    + injection H as <-. destruct (fault_error ok2); eauto.
  - intros ok1 ok2 api kw f1 f2 db db1 H.
    unfold FetcherTwitter.fetch, Twitter.fetch_twitter_api in *.
    destruct (fault_error ok1); [discriminate |].
    destruct (api kw None) as [[page nt] | e]; simpl in H.
    + destruct (for_each_push_total (FetcherTwitter.filter_item (ids db)) page
                  (fetcher_twitter_filter_item_no_panic _)) as [l Hl].
      rewrite Hl in H.
      destruct (fault_error ok2); [reflexivity |]. simpl.
      rewrite (check_then_write_second_pass _ _ _ _ _ _ fetcher_twitter_filter_item_snapshot Hl H).
      unfold exec_batch. destruct (fault_error (f2 0)); reflexivity.
    + injection H as <-. destruct (fault_error ok2); reflexivity.
Qed.

Lemma second_cycle_after_ok_writes_nothing_witness :
  Twitter.fetch NoFault Samples.two_tweets "kw" no_fault [] =
    ([Samples.tw_row "1" "hello"; Samples.tw_row "2" "world"], Ok tt) /\
  fst (Twitter.fetch NoFault Samples.two_tweets "kw" no_fault
         [Samples.tw_row "1" "hello"; Samples.tw_row "2" "world"]) =
    [Samples.tw_row "1" "hello"; Samples.tw_row "2" "world"].
Proof.
  split; [reflexivity |].
  apply (proj1 (proj2 second_cycle_after_ok_writes_nothing) NoFault NoFault Samples.two_tweets
           "kw" no_fault no_fault []).
  reflexivity.
Defined.

(** C2 counterexample. A search page that repeats tweet 1: the first
    cycle inserts [twitter-1], the repeated row raises a duplicate-key
    error and [twitter-2] is never sent; the second cycle, on the same
    upstream answer, persists [twitter-2]. *)
Lemma repeated_id_second_cycle_persists :
  Twitter.fetch NoFault Samples.repeated_tweet "kw" no_fault [] =
    ([Samples.tw_row "1" "hello"], Err (DuplicateKey "twitter-1")) /\
  Twitter.fetch NoFault Samples.repeated_tweet "kw" no_fault [Samples.tw_row "1" "hello"] =
    ([Samples.tw_row "1" "hello"; Samples.tw_row "2" "world"], Ok tt).
Proof. split; reflexivity. Qed.

(** C5. A cycle whose upstream fetch fails writes nothing: every fetcher
    returns before its batch write and leaves [shareables] as it was
    ([Fetcher::run] returns at [self.fetch(keyword).await?]). *)
Theorem failed_fetch_writes_nothing v kw e1 e2 ok fault db
  (api_tw : Upstream Twitter.TwitterResponseItem)
  (api_so : Upstream StackOverflow.StackOverflowQuestion) :
  api_tw kw None = Err e1 -> api_so kw None = Err e2 ->
  fst (Twitter.fetch ok api_tw kw fault db) = db /\
  fst (FetcherTwitter.fetch ok api_tw kw fault db) = db /\
  option_map fst (StackOverflow.fetch v ok api_so kw fault db) = Some db /\
  Base.run (Err e1) fault db = (db, Err e1).
Proof.
  intros Htw Hso.
  unfold Twitter.fetch, FetcherTwitter.fetch, StackOverflow.fetch,
    Twitter.fetch_twitter_api, StackOverflow.fetch_stackoverflow_api.
  rewrite Htw, Hso. destruct (fault_error ok); repeat split.
Qed.

Lemma failed_fetch_writes_nothing_witness :
  fst (Twitter.fetch NoFault (Samples.failing "timed out") "kw" no_fault
         [Samples.tw_row "1" "hello"]) = [Samples.tw_row "1" "hello"] /\
  fst (FetcherTwitter.fetch NoFault (Samples.failing "timed out") "kw" no_fault
         [Samples.tw_row "1" "hello"]) = [Samples.tw_row "1" "hello"] /\
  option_map fst (StackOverflow.fetch Chrono.From_0_4_20 NoFault (Samples.failing "timed out")
                    "kw" no_fault [Samples.tw_row "1" "hello"]) =
    Some [Samples.tw_row "1" "hello"] /\
  Base.run (Err "timed out") no_fault [Samples.tw_row "1" "hello"] =
    ([Samples.tw_row "1" "hello"], Err "timed out").
Proof.
  apply (failed_fetch_writes_nothing Chrono.From_0_4_20 "kw" "timed out" "timed out" NoFault
           no_fault [Samples.tw_row "1" "hello"] (Samples.failing "timed out")
           (Samples.failing "timed out")); reflexivity.
Defined.

(** C8 (as amended). A batch write first prepares its statement, even for
    an empty batch, and sends no row when that fails; then it sends one
    statement per row, in order, and stops at the first statement that
    fails, with no transaction. The table afterwards is the table after
    the first [k] rows ran without error and the rows from [k] on were
    never sent; the write returns [Ok] exactly when the PREPARE ran and
    [k] is the whole batch; for the plain INSERT of the check-then-write
    fetchers those [k] rows are appended as they are. *)
Theorem batch_write_stops_at_first_error s fault rows db db' r :
  exec_batch s fault rows db = (db', r) ->
  exists k, k <= length rows /\
    (r = Ok tt <-> fault 0 = NoFault /\ k = length rows) /\
    (fault 0 <> NoFault -> k = 0 /\ db' = db) /\
    exec_batch s no_fault (firstn k rows) db = (db', Ok tt) /\
    (s = InsertPlain -> db' = (db ++ firstn k rows)%list).
Proof.
  intros H. destruct (fault 0) eqn:F0.
  - rewrite (exec_batch_prepared _ _ _ _ F0) in H.
    destruct (exec_batch_from_prefix _ _ _ _ _ _ _ H) as (k & Hk & Hok & Herr & Hrun).
    exists k. split; [exact Hk |]. split.
    { split; [intros Hr; split; [reflexivity | exact (Hok Hr)] |].
      intros [_ Hkl]. destruct r as [[] | e]; [reflexivity |].
      specialize (Herr e eq_refl). lia. }
    split; [intros Hn; congruence |].
    split; [exact Hrun |].
    intros ->. exact (exec_batch_from_plain_ok _ _ _ _ Hrun).
  - unfold exec_batch in H. rewrite F0 in H. injection H as <- <-.
    exists 0. split; [lia |]. split; [split; [discriminate | intros [Hc _]; discriminate Hc] |].
    split; [auto |]. split; [reflexivity |]. intros _. rewrite app_nil_r. reflexivity.
  - unfold exec_batch in H. rewrite F0 in H. injection H as <- <-.
    exists 0. split; [lia |]. split; [split; [discriminate | intros [Hc _]; discriminate Hc] |].
    split; [auto |]. split; [reflexivity |]. intros _. rewrite app_nil_r. reflexivity.
Qed.

Lemma batch_write_stops_at_first_error_witness :
  exec_batch InsertPlain (fun i => if Nat.eqb i 2 then Transport else NoFault)
    [Samples.tw_row "1" "hello"; Samples.tw_row "2" "world"] [] =
    ([Samples.tw_row "1" "hello"], Err TransportError) /\
  exists k, k <= 2 /\
    (Err TransportError = @Ok unit StoreError tt <-> NoFault = NoFault /\ k = 2) /\
    (NoFault <> NoFault -> k = 0 /\ [Samples.tw_row "1" "hello"] = []) /\
    exec_batch InsertPlain no_fault
      (firstn k [Samples.tw_row "1" "hello"; Samples.tw_row "2" "world"]) [] =
      ([Samples.tw_row "1" "hello"], Ok tt) /\
    (InsertPlain = InsertPlain ->
     [Samples.tw_row "1" "hello"] =
       ([] ++ firstn k [Samples.tw_row "1" "hello"; Samples.tw_row "2" "world"])%list).
Proof.
  split; [reflexivity |].
  apply (batch_write_stops_at_first_error InsertPlain
           (fun i => if Nat.eqb i 2 then Transport else NoFault)
           [Samples.tw_row "1" "hello"; Samples.tw_row "2" "world"] []).
  reflexivity.
Defined.

(** C8 counterexample. Two new tweets, the store connection drops on the
    second INSERT: the cycle ends in a store error with [twitter-1]
    persisted and [twitter-2] not, a batch split across the failure. *)
Lemma partial_batch_after_store_error :
  Twitter.fetch NoFault Samples.two_tweets "kw"
    (fun i => if Nat.eqb i 2 then Transport else NoFault) [] =
    ([Samples.tw_row "1" "hello"], Err TransportError).
Proof. reflexivity. Qed.

(** What a Twitter [fetch] writes is drawn from its batch. *)
Lemma twitter_fetch_rows ok api kw fault db page next :
  api kw None = Ok (page, next) ->
  exists l, for_each_push (Twitter.filter_item (ids db)) page = Some l /\
    forall p, List.In p (fst (Twitter.fetch ok api kw fault db)) ->
      List.In p db \/ List.In p l.
Proof.
  intros Hapi.
  destruct (for_each_push_total (Twitter.filter_item (ids db)) page
              (twitter_filter_item_no_panic _)) as [l Hl].
  exists l. split; [exact Hl |]. intros p Hp.
  unfold Twitter.fetch, Twitter.fetch_twitter_api in Hp.
  destruct (fault_error ok); [left; exact Hp |].
  rewrite Hapi in Hp. simpl in Hp. rewrite Hl in Hp.
  destruct (exec_batch_appends InsertPlain fault l db) as (suf & Hs & Hi).
  rewrite Hs in Hp. apply in_app_or in Hp as [Hp | Hp]; [left; exact Hp |].
  right. exact (Hi p Hp).
Qed.

(** C3 (as amended). No fetcher paginates. A cycle whose [SELECT] fails
    returns its error before any upstream request: its outcome does not
    depend on the upstream at all. Otherwise it sends one request, with
    the keyword and no cursor, and depends only on the items of that
    response: two upstreams that answer it with the same items give the
    same cycle, whatever their continuation tokens and later pages. *)
Theorem one_request_per_cycle :
  (forall ok api api' kw fault db,
     page_items (api kw None) = page_items (api' kw None) ->
     Twitter.fetch ok api kw fault db = Twitter.fetch ok api' kw fault db) /\
  (forall v ok api api' kw fault db,
     page_items (api kw None) = page_items (api' kw None) ->
     StackOverflow.fetch v ok api kw fault db = StackOverflow.fetch v ok api' kw fault db) /\
  (forall ok api api' kw fault db,
     page_items (api kw None) = page_items (api' kw None) ->
     FetcherTwitter.fetch ok api kw fault db = FetcherTwitter.fetch ok api' kw fault db) /\
  (forall ok e api_tw api_so kw fault db,
     fault_error ok = Some e ->
     Twitter.fetch ok api_tw kw fault db = (db, Err e) /\
     FetcherTwitter.fetch ok api_tw kw fault db = (db, Err e) /\
     forall v, StackOverflow.fetch v ok api_so kw fault db = Some (db, Err e)).
Proof.
  split; [| split; [| split]].
  - intros ok api api' kw fault db H.
    unfold Twitter.fetch, Twitter.fetch_twitter_api.
    destruct (fault_error ok); [reflexivity |].
    destruct (api kw None) as [[p n] | e], (api' kw None) as [[p' n'] | e'];
      simpl in H; inversion H; subst; reflexivity.
  - intros v ok api api' kw fault db H.
    unfold StackOverflow.fetch, StackOverflow.fetch_stackoverflow_api.
    destruct (fault_error ok); [reflexivity |].
    destruct (api kw None) as [[p n] | e], (api' kw None) as [[p' n'] | e'];
      simpl in H; inversion H; subst; reflexivity.
  - intros ok api api' kw fault db H.
    unfold FetcherTwitter.fetch, Twitter.fetch_twitter_api.
    destruct (fault_error ok); [reflexivity |].
    destruct (api kw None) as [[p n] | e], (api' kw None) as [[p' n'] | e'];
      simpl in H; inversion H; subst; reflexivity.
  - intros ok e api_tw api_so kw fault db H.
    unfold Twitter.fetch, FetcherTwitter.fetch, StackOverflow.fetch. rewrite H.
    split; [reflexivity | split; [reflexivity | intros v; reflexivity]].
Qed.

Lemma one_request_per_cycle_witness :
  Twitter.fetch NoFault Samples.two_pages "kw" no_fault [] =
  Twitter.fetch NoFault
    (fun _ _ => Ok ([Samples.tw "1" "a"; Samples.tw "2" "RT @bob: b"; Samples.tw "3" "c"], None))
    "kw" no_fault [].
Proof.
  apply (proj1 one_request_per_cycle NoFault Samples.two_pages). reflexivity.
Defined.

(** C3 counterexample. §8's two-page chain: the driver the claim
    describes returns the four normalized tweets of both pages; the
    Twitter cycle persists only the two of page 1. *)
Lemma only_first_page_fetched :
  paginate_spec 10 Samples.two_pages "kw" None twitter_normalize =
    Ok [Samples.tw_row "1" "a"; Samples.tw_row "3" "c";
        Samples.tw_row "4" "d"; Samples.tw_row "5" "e"] /\
  Twitter.fetch NoFault Samples.two_pages "kw" no_fault [] =
    ([Samples.tw_row "1" "a"; Samples.tw_row "3" "c"], Ok tt).
Proof. split; reflexivity. Qed.

(** C4 (code bug). A failed search gives [Ok(())] from twitter.rs and
    stackoverflow.rs, the same value as a successful search with no item
    (one whose write, a PREPARE and no row, succeeds), and the scheduler
    loop sees the same outcome; only [Fetcher::run] returns the error. *)
Theorem failed_fetch_returns_ok v kw e fault db :
  Twitter.fetch NoFault (Samples.failing e) kw fault db = (db, Ok tt) /\
  (fault 0 = NoFault -> Twitter.fetch NoFault Samples.empty_page kw fault db = (db, Ok tt)) /\
  StackOverflow.fetch v NoFault (Samples.failing e) kw fault db = Some (db, Ok tt) /\
  (fault 0 = NoFault ->
   StackOverflow.fetch v NoFault Samples.empty_page kw fault db = Some (db, Ok tt)) /\
  (fault 0 = NoFault ->
   twitter_spawn_fetcher 1 (fun _ => true) (fun _ => NoFault) (fun _ => Samples.failing e)
     kw (fun _ => fault) db =
   twitter_spawn_fetcher 1 (fun _ => true) (fun _ => NoFault) (fun _ => Samples.empty_page)
     kw (fun _ => fault) db) /\
  Base.run (Err e) fault db = (db, Err e).
Proof.
  split; [reflexivity |]. split.
  { intros H0. unfold Twitter.fetch, exec_batch. cbn. rewrite H0. reflexivity. }
  split; [reflexivity |]. split.
  { intros H0. unfold StackOverflow.fetch, exec_batch. cbn. rewrite H0. reflexivity. }
  split; [| reflexivity].
  intros H0. unfold twitter_spawn_fetcher, Twitter.fetch, exec_batch. cbn. rewrite H0.
  reflexivity.
Qed.

(** C6 (code bug). twitter.rs drops every tweet whose text contains "RT"
    before the snapshot check, so every row it writes comes from a tweet
    without it; the standalone fetcher-twitter binary has no such rule
    and persists the retweet. *)
Theorem retweets_excluded_only_by_src_fetcher :
  (forall ok api kw fault db page next,
     api kw None = Ok (page, next) ->
     forall p, List.In p (fst (Twitter.fetch ok api kw fault db)) ->
       List.In p db \/
       exists x, List.In x page /\ contains (Twitter.text x) "RT" = false /\
                 id p = "twitter-" ++ Twitter.id x) /\
  Twitter.fetch NoFault Samples.retweet_page "kw" no_fault [] =
    ([Samples.tw_row "2" "hello"], Ok tt) /\
  FetcherTwitter.fetch NoFault Samples.retweet_page "kw" no_fault [] =
    ([Samples.tw_row "1" "RT @alice: hello"; Samples.tw_row "2" "hello"], Ok tt).
Proof.
  split; [| split; reflexivity].
  intros ok api kw fault db page next Hapi p Hp.
  destruct (twitter_fetch_rows ok api kw fault db page next Hapi) as (l & Hl & Hrows).
  destruct (Hrows p Hp) as [Hdb | Hin]; [left; exact Hdb | right].
  destruct (for_each_push_in _ _ _ Hl p Hin) as (x & Hx & Hf).
  exists x. split; [exact Hx |].
  unfold Twitter.filter_item in Hf.
  destruct (contains (Twitter.text x) "RT"); [discriminate |].
  destruct (negb _); [| discriminate].
  injection Hf as <-. split; reflexivity.
Qed.




(** ** The scheduler loop against [sequential_cycles] *)
Lemma loop_from_connected {St R : Type} n m k get_conn (cycle : nat -> St -> St * R) s :
  (forall j, k <= j < k + n -> get_conn j = true) ->
  loop_from (n + m) k get_conn cycle s =
    let '(rs, s') := sequential_cycles n k cycle s in
    let '(ev, st, s'') := loop_from m (k + n) get_conn cycle s' in
    ((flat_map (fun r => [Cycle r; Tick]) rs ++ ev)%list, st, s'').
Proof.
  revert k s. induction n as [| n IH]; intros k s H.
  - simpl. rewrite Nat.add_0_r. destruct (loop_from m k get_conn cycle s) as [[ev st] s''].
    reflexivity.
  - simpl. rewrite (H k) by lia. simpl.
    destruct (cycle k s) as [s1 r].
    rewrite (IH (S k) s1) by (intros j Hj; apply H; lia).
    replace (S k + n) with (k + S n) by lia.
    destruct (sequential_cycles n (S k) cycle s1) as [rs s'].
    destruct (loop_from m (k + S n) get_conn cycle s') as [[ev st] s''].
    reflexivity.
Qed.

(** The StackOverflow loop whose connections all come and whose cycles
    never panic runs them all and is still looping. *)
Lemma stackoverflow_loop_connected v n k get_conn selects apis kw faults db :
  (forall j, k <= j < k + n -> get_conn j = true) ->
  (forall j db', k <= j < k + n ->
     StackOverflow.fetch v (selects j) (apis j) kw (faults j) db' <> None) ->
  exists rs db'', stackoverflow_loop_from v n k get_conn selects apis kw faults db =
    (flat_map (fun r => [Cycle r; Tick]) rs, Looping, db'') /\ length rs = n.
Proof.
  revert k db. induction n as [| n IH]; intros k db Hc Hp; simpl.
  - exists [], db. split; reflexivity.
  - rewrite (Hc k) by lia. simpl.
    destruct (StackOverflow.fetch v (selects k) (apis k) kw (faults k) db) as [[db1 r] |] eqn:E.
    + destruct (IH (S k) db1) as (rs & db'' & Hl & Hlen);
        [intros j Hj; apply Hc; lia | intros j db' Hj; apply Hp; lia |].
      rewrite Hl. exists (r :: rs), db''. split; [reflexivity | simpl; congruence].
    + exfalso. exact (Hp k db ltac:(lia) E).
Qed.

(** C9 (as amended). While the pool hands out a connection, the loop
    goes on: after [n] iterations it has run the [n] cycles one after the
    other, each on the store the previous one left, each followed by the
    same [interval.tick()] whether it returned [Ok] or [Err], and it is
    still looping. The first iteration whose [pool.get_conn()] fails
    panics at [.expect] and the task ends there. The StackOverflow loop
    goes on the same way while its cycles do not panic; a cycle that
    panics ends its task. *)
Theorem scheduler_loop_continues_after_every_outcome {St R : Type} n m get_conn
  (cycle : nat -> St -> St * R) s :
  (forall k, k < n -> get_conn k = true) ->
  loop_from n 0 get_conn cycle s =
    (flat_map (fun r => [Cycle r; Tick]) (fst (sequential_cycles n 0 cycle s)), Looping,
     snd (sequential_cycles n 0 cycle s)) /\
  (get_conn n = false ->
   loop_from (n + S m) 0 get_conn cycle s =
    (flat_map (fun r => [Cycle r; Tick]) (fst (sequential_cycles n 0 cycle s)), Panicked,
     snd (sequential_cycles n 0 cycle s))) /\
  (forall v selects apis kw faults db,
     (forall k db', k < n ->
        StackOverflow.fetch v (selects k) (apis k) kw (faults k) db' <> None) ->
     exists rs db', stackoverflow_spawn_fetcher v n get_conn selects apis kw faults db =
       (flat_map (fun r => [Cycle r; Tick]) rs, Looping, db') /\ length rs = n) /\
  (forall v k selects apis kw faults db,
     get_conn k = true ->
     StackOverflow.fetch v (selects k) (apis k) kw (faults k) db = None ->
     stackoverflow_loop_from v (S m) k get_conn selects apis kw faults db =
       ([], Panicked, db)).
Proof.
  intros H. split; [| split; [| split]].
  - rewrite <- (Nat.add_0_r n) at 1.
    rewrite (loop_from_connected n 0 0 get_conn cycle s) by (intros j Hj; apply H; lia).
    destruct (sequential_cycles n 0 cycle s) as [rs s']. simpl.
    rewrite app_nil_r. reflexivity.
  - intros Hn.
    rewrite (loop_from_connected n (S m) 0 get_conn cycle s) by (intros j Hj; apply H; lia).
    destruct (sequential_cycles n 0 cycle s) as [rs s']. simpl. rewrite Hn. simpl.
    rewrite app_nil_r. reflexivity.
  - intros v selects apis kw faults db Hp.
    apply stackoverflow_loop_connected.
    + intros j Hj. apply H. lia.
    + intros j db' Hj. apply Hp. lia.
  - intros v k selects apis kw faults db Hc Hf. simpl. rewrite Hc, Hf. reflexivity.
Qed.

Lemma scheduler_loop_continues_after_every_outcome_witness :
  Base.run_in_loop 2 (fun k => Nat.ltb k 2)
    (fun k => if Nat.eqb k 0 then Err "timed out" else Ok [Samples.tw_row "1" "hello"])
    (fun _ => no_fault) [] =
    ([Cycle (Err "timed out"); Tick; Cycle (Ok tt); Tick], Looping,
     [Samples.tw_row "1" "hello"]).
Proof.
  unfold Base.run_in_loop.
  rewrite (proj1 (scheduler_loop_continues_after_every_outcome 2 0 (fun k => Nat.ltb k 2)
    (fun k db => Base.run (if Nat.eqb k 0 then Err "timed out" else Ok [Samples.tw_row "1" "hello"])
                          no_fault db) []
    (fun k Hk => proj2 (Nat.ltb_lt k 2) Hk))).
  reflexivity.
Defined.

(** C9 counterexample. The pool fails to hand out a connection at the
    second iteration: [.expect("Failed to get connection")] panics and the
    loop ends after one cycle. *)
Lemma get_conn_failure_ends_loop :
  Base.run_in_loop 3 (fun k => Nat.eqb k 0) (fun _ => Ok []) (fun _ => no_fault) [] =
    ([Cycle (Ok tt); Tick], Panicked, []).
Proof. reflexivity. Qed.

(** ** The in-memory cache of src/src/main.rs *)
Section SlackCache.

Import Main.

Lemma marks_refl c : marks c c [].
Proof. split; [set_solver | split; intros i []]. Qed.

Lemma marks_trans c0 c1 c2 a b :
  marks c0 c1 a -> marks c1 c2 b -> marks c0 c2 (a ++ b)%list.
Proof.
  intros (H01 & Ha1 & Ha0) (H12 & Hb2 & Hb1). split; [set_solver |]. split.
  - intros i Hi. apply in_app_or in Hi as [Hi | Hi]; [| exact (Hb2 i Hi)].
    specialize (Ha1 i Hi). set_solver.
  - intros i Hi. apply in_app_or in Hi as [Hi | Hi]; [exact (Ha0 i Hi) |].
    specialize (Hb1 i Hi). set_solver.
Qed.

Lemma filter_duplicate_items_marks c items :
  marks c (fst (filter_duplicate_items c items)) (snd (filter_duplicate_items c items)).
Proof.
  revert c. induction items as [| item rest IH]; intros c; simpl; [apply marks_refl |].
  destruct (decide (cache_key item ∈ c)) as [Hin | Hnin]; [apply IH |].
  destruct (never_share item); [apply IH |].
  specialize (IH ({[cache_key item]} ∪ c)).
  destruct (filter_duplicate_items ({[cache_key item]} ∪ c) rest) as [c' out] eqn:E.
  simpl in *. destruct IH as (Hsub & Hin' & Hfresh). split; [set_solver |]. split.
  - intros i [<- | Hi]; [set_solver | exact (Hin' i Hi)].
  - intros i [<- | Hi]; [exact Hnin |]. specialize (Hfresh i Hi). set_solver.
Qed.

Lemma collect_twitter_marks c0 c1 acc r :
  marks c0 c1 acc ->
  marks c0 (fst (collect_twitter (c1, acc) r)) (snd (collect_twitter (c1, acc) r)).
Proof.
  intros H. destruct r as [data | e]; simpl; [| exact H].
  pose proof (filter_duplicate_items_marks c1 (map Tweet data)) as Hf.
  unfold filter_duplicate_twitter_items.
  destruct (filter_duplicate_items c1 (map Tweet data)) as [c' out].
  exact (marks_trans _ _ _ _ _ H Hf).
Qed.

Lemma collect_marks c r0 r1 r2 :
  marks c (fst (collect c r0 r1 r2)) (snd (collect c r0 r1 r2)).
Proof.
  unfold collect. cbn [fold_left].
  pose proof (collect_twitter_marks c c [] r0 (marks_refl c)) as H0.
  destruct (collect_twitter (c, []) r0) as [c1 acc1].
  pose proof (collect_twitter_marks c c1 acc1 r1 H0) as H1.
  destruct (collect_twitter (c1, acc1) r1) as [c2 acc2].
  destruct r2 as [items | e]; [| exact H1].
  pose proof (filter_duplicate_items_marks c2 (map Question items)) as Hf.
  unfold filter_duplicate_stack_overflow_items.
  destruct (filter_duplicate_items c2 (map Question items)) as [c' out].
  exact (marks_trans _ _ _ _ _ H1 Hf).
Qed.

End SlackCache.

(** C10. In the storeless variant, every item [root] keeps for posting has
    its cache key added to the shared cache while it is filtered, before
    the Slack POST. The POST's outcome changes neither the cache nor the
    ["ok"] response, only the log line. The cache only grows, so a later
    invocation, whose cache holds this one's, never posts an item with
    the same key, whether or not the first POST was delivered. *)
Theorem slack_keys_marked_before_post c r0 r1 r2 :
  let '(c', items) := Main.collect c r0 r1 r2 in
  (forall slack_ok, exists text,
     Main.root c r0 r1 r2 slack_ok =
       (c', {| Main.status := "ok";
               Main.posted_items := Some (Main.as_i32 (length items)) |},
        text, if slack_ok then "ok" else "Error sending slack message")) /\
  c ⊆ c' /\
  (forall i, List.In i items -> Main.cache_key i ∈ c') /\
  (forall c2 r0' r1' r2', c' ⊆ c2 ->
     forall i i', List.In i items -> List.In i' (snd (Main.collect c2 r0' r1' r2')) ->
       Main.cache_key i' <> Main.cache_key i).
Proof.
  pose proof (collect_marks c r0 r1 r2) as (Hsub & Hin & _).
  unfold Main.root.
  destruct (Main.collect c r0 r1 r2) as [c' items] eqn:E. simpl in *.
  split; [intros ok; eexists; reflexivity |].
  split; [exact Hsub |]. split; [exact Hin |].
  intros c2 r0' r1' r2' Hc2 i i' Hi Hi' Heq.
  destruct (collect_marks c2 r0' r1' r2') as (_ & _ & Hfresh).
  apply (Hfresh i' Hi'). rewrite Heq. apply Hc2, Hin, Hi.
Qed.

(** ** Further properties: the web page of src/src/routes/root.rs *)

Lemma str_app_nil_r s : s ++ "" = s.
Proof. induction s as [| c s IH]; [reflexivity | exact (f_equal (String c) IH)]. Qed.

Lemma str_app_assoc a b c : a ++ b ++ c = (a ++ b) ++ c.
Proof. induction a as [| x a IH]; [reflexivity | exact (f_equal (String x) IH)]. Qed.

Lemma concat_empty_cons x l : String.concat "" (x :: l) = x ++ String.concat "" l.
Proof. destruct l; [symmetry; apply str_app_nil_r | reflexivity]. Qed.

Lemma concat_empty_app l1 l2 :
  String.concat "" (l1 ++ l2)%list = String.concat "" l1 ++ String.concat "" l2.
Proof.
  induction l1 as [| x l1 IH]; [reflexivity |].
  rewrite <- app_comm_cons, !concat_empty_cons, IH, str_app_assoc. reflexivity.
Qed.

Lemma concat_empty_in x l : List.In x l ->
  exists a b, String.concat "" l = a ++ x ++ b.
Proof.
  induction l as [| y l IH]; intros H; [destruct H |].
  rewrite concat_empty_cons. destruct H as [<- | H].
  - exists "", (String.concat "" l). reflexivity.
  - destruct (IH H) as (a & b & ->). exists (y ++ a), b.
    rewrite str_app_assoc. reflexivity.
Qed.

(** X1. The two lists of the web page are built row by row in table
    order: the rows of a concatenated table render as the concatenation of
    the two parts' lists, and a row whose [source] is not ["twitter"]
    (resp. ["stackoverflow"]) contributes nothing to the Twitter (resp.
    StackOverflow) list. *)
Theorem web_lists_split_by_source db1 db2 :
  Routes.twitter_items (db1 ++ db2)%list =
    Routes.twitter_items db1 ++ Routes.twitter_items db2 /\
  Routes.stackoverflow_items (db1 ++ db2)%list =
    Routes.stackoverflow_items db1 ++ Routes.stackoverflow_items db2 /\
  (forall p, source p <> "twitter" ->
     Routes.twitter_items (p :: db1) = Routes.twitter_items db1) /\
  (forall p, source p <> "stackoverflow" ->
     Routes.stackoverflow_items (p :: db1) = Routes.stackoverflow_items db1).
Proof.
  unfold Routes.twitter_items, Routes.stackoverflow_items.
  split; [rewrite List.filter_app, map_app, concat_empty_app; reflexivity |].
  split; [rewrite List.filter_app, map_app, concat_empty_app; reflexivity |].
  split; intros p Hp; simpl;
    [destruct (String.eqb_spec (source p) "twitter") | destruct (String.eqb_spec (source p) "stackoverflow")];
    congruence.
Qed.

(** X2. [root] escapes nothing: every Twitter row appears in the Twitter
    list as one entry holding its [url] and [title] verbatim, and every
    StackOverflow row appears with its [url] verbatim and its title
    through the three emoji replacements only. *)
Theorem web_lists_embed_rows_verbatim db p :
  List.In p db ->
  (source p = "twitter" ->
   exists a b, Routes.twitter_items db = a ++ Routes.li (url p) (title p) ++ b) /\
  (source p = "stackoverflow" ->
   exists a b, Routes.stackoverflow_items db =
     a ++ Routes.li (url p) (Routes.stackoverflow_title (title p)) ++ b).
Proof.
  intros Hin. split; intros Hs; apply concat_empty_in, in_map_iff; exists p;
    (split; [reflexivity |]); apply filter_In; split; try exact Hin;
    apply String.eqb_eq; exact Hs.
Qed.

(** X3. A row built by stackoverflow.rs renders on the web page with the
    emoji of the question's state first: the [":white_check_mark:"],
    [":waiting-spin:"] or [":question:"] prefix becomes its emoji, followed
    by [" - "] and the question's title with the replacements applied. *)
Theorem stackoverflow_row_renders_state v k q p :
  StackOverflow.filter_item v k q = Push p ->
  Routes.stackoverflow_items [p] =
    Routes.li (StackOverflow.link q)
      ((if StackOverflow.is_answered q then "✅"
        else if (0 <? StackOverflow.answer_count q)%Z then "🔄" else "❓") ++ " - " ++
       Routes.stackoverflow_title (StackOverflow.title q)).
Proof.
  unfold StackOverflow.filter_item.
  destruct (negb _); [| discriminate].
  destruct (Chrono.timestamp_opt _) as [date |]; [| discriminate].
  intros H; injection H as <-. unfold StackOverflow.state.
  destruct (StackOverflow.is_answered q); [reflexivity |].
  destruct (0 <? StackOverflow.answer_count q)%Z; reflexivity.
Qed.

(** ** Further properties: the store *)
Lemma exec_batch_from_ignore_err fault i rows db :
  (forall e, snd (exec_batch_from InsertIgnore fault i rows db) = Err e ->
     exists j, i <= j < i + length rows /\ fault_error (fault j) = Some e) /\
  ((forall j, i <= j < i + length rows -> fault j = NoFault) ->
     snd (exec_batch_from InsertIgnore fault i rows db) = Ok tt).
Proof.
  revert i db. induction rows as [| p rest IH]; intros i db; simpl.
  - split; [discriminate | reflexivity].
  - unfold exec_row. destruct (fault_error (fault i)) as [e0 |] eqn:Ef.
    + split; [simpl; intros e He; injection He as <-; exists i; split; [lia | exact Ef] |].
      intros H. rewrite (H i) in Ef by lia. discriminate.
    + destruct (known (id p) (ids db));
        [destruct (IH (S i) db) as [IH1 IH2] | destruct (IH (S i) (db ++ [p])%list) as [IH1 IH2]];
        (split;
         [intros e He; destruct (IH1 e He) as (j & Hj & Hf); exists j; split; [lia | exact Hf]
         | intros H; apply IH2; intros j Hj; apply H; lia]).
Qed.

(** X4. [Fetcher::run] on fetched items only appends rows drawn from them
    (INSERT IGNORE never changes an existing row); every error it returns
    is a store error raised at the PREPARE or at one of the rows, never a
    duplicate id; a failed PREPARE leaves the table as it was; when it
    returns [Ok] every fetched id is in the table; and when neither the
    PREPARE nor any row fails it returns [Ok]. *)
Theorem fetcher_run_insert_ignore items fault db :
  let '(db', r) := Base.run (Ok items) fault db in
  (exists suf, db' = (db ++ suf)%list /\ incl suf items) /\
  (forall e, r = Err e -> exists j se, j <= length items /\
     fault_error (fault j) = Some se /\ e = Base.stringify se) /\
  (fault 0 <> NoFault -> db' = db) /\
  (r = Ok tt -> forall p, List.In p items -> List.In (id p) (ids db')) /\
  ((forall j, j <= length items -> fault j = NoFault) -> r = Ok tt).
Proof.
  unfold Base.run.
  destruct (exec_batch_appends InsertIgnore fault items db) as (suf & Hs & Hi).
  destruct (exec_batch InsertIgnore fault items db) as [db' r] eqn:E. simpl in Hs |- *.
  split; [exists suf; split; assumption |].
  split; [| split; [| split]].
  - intros e He. destruct r as [[] | e0]; [discriminate |]. injection He as <-.
    unfold exec_batch in E. destruct (fault_error (fault 0)) as [e1 |] eqn:F0.
    + injection E as E1 E2. subst. exists 0, e0. split; [lia | split; [exact F0 | reflexivity]].
    + destruct (exec_batch_from_ignore_err fault 1 items db) as [H1 _]. rewrite E in H1.
      destruct (H1 e0 eq_refl) as (j & Hj & Hf). exists j, e0.
      split; [lia | split; [exact Hf | reflexivity]].
  - intros H0. destruct (exec_batch_prepare_failed InsertIgnore fault items db H0)
      as (e & _ & He). congruence.
  - destruct r as [[] | e]; [| discriminate]. intros _. exact (exec_batch_ok_known _ _ _ _ _ E).
  - intros H. rewrite (exec_batch_prepared _ _ _ _ (H 0 ltac:(lia))) in E.
    destruct (exec_batch_from_ignore_err fault 1 items db) as [_ H2]. rewrite E in H2.
    simpl in H2. rewrite H2; [reflexivity |]. intros j Hj. apply H. lia.
Qed.

Ltac appends_batch :=
  match goal with
  | |- context [exec_batch ?s ?f ?l ?d] =>
      let suf := fresh "suf" in let Hs := fresh "Hs" in
      destruct (exec_batch_appends s f l d) as (suf & Hs & _);
      destruct (exec_batch s f l d); exists suf; exact Hs
  end.

Lemma run_cycle_appends c db : exists suf, run_cycle c db = (db ++ suf)%list.
Proof.
  destruct c as [fetched fault | ok api kw fault | v ok api kw fault | ok api kw fault]; simpl.
  - unfold Base.run. destruct fetched as [items | e]; [| exists []; rewrite app_nil_r; reflexivity].
    appends_batch.
  - unfold Twitter.fetch. destruct (fault_error ok); simpl;
      [exists []; rewrite app_nil_r; reflexivity |].
    destruct (Twitter.fetch_twitter_api api kw) as [resp | e]; simpl;
      [appends_batch | exists []; rewrite app_nil_r; reflexivity].
  - unfold StackOverflow.fetch. destruct (fault_error ok); simpl;
      [exists []; rewrite app_nil_r; reflexivity |].
    destruct (StackOverflow.fetch_stackoverflow_api api kw) as [resp | e]; simpl;
      [| exists []; rewrite app_nil_r; reflexivity].
    destruct (for_each_push (StackOverflow.filter_item v (ids db)) (StackOverflow.items resp))
      as [l |]; [appends_batch | exists []; rewrite app_nil_r; reflexivity].
  - unfold FetcherTwitter.fetch. destruct (fault_error ok); simpl;
      [exists []; rewrite app_nil_r; reflexivity |].
    destruct (Twitter.fetch_twitter_api api kw) as [resp | e]; simpl;
      [appends_batch | exists []; rewrite app_nil_r; reflexivity].
Qed.

(** X5. No sequence of cycles of any fetcher ever modifies or deletes a
    row: the table after the cycles is the table before them followed by
    new rows. *)
Theorem cycles_only_append cs db : exists suf, run_cycles cs db = (db ++ suf)%list.
Proof.
  revert db. induction cs as [| c cs IH]; intros db; simpl.
  - exists []. rewrite app_nil_r. reflexivity.
  - destruct (run_cycle_appends c db) as [suf1 H1]. rewrite H1.
    destruct (IH (db ++ suf1)%list) as [suf2 H2]. rewrite H2.
    exists (suf1 ++ suf2)%list. rewrite app_assoc. reflexivity.
Qed.

Lemma batch_rows_from_pushes {A : Type} (f : A -> step Shareable) page l s fault db :
  for_each_push f page = Some l ->
  exists suf, fst (exec_batch s fault l db) = (db ++ suf)%list /\
    forall p, List.In p suf -> exists x, List.In x page /\ f x = Push p.
Proof.
  intros Hl. destruct (exec_batch_appends s fault l db) as (suf & Hs & Hi).
  exists suf. split; [exact Hs |]. intros p Hp.
  exact (for_each_push_in f page l Hl p (Hi p Hp)).
Qed.

(** X6. The rows a Twitter cycle appends are built from tweets of the
    page whose [twitter-] id was not in the table: id ["twitter-" ++ id],
    the text as title, [created_at] as date, the status URL and source
    ["twitter"]; for twitter.rs the tweet's text has no ["RT"]. *)
Theorem twitter_rows_built_from_page ok api kw fault db page next :
  api kw None = Ok (page, next) ->
  (exists suf, fst (Twitter.fetch ok api kw fault db) = (db ++ suf)%list /\
     forall p, List.In p suf -> exists x, List.In x page /\
       contains (Twitter.text x) "RT" = false /\
       ~ List.In ("twitter-" ++ Twitter.id x) (ids db) /\
       p = {| Store.id := "twitter-" ++ Twitter.id x; title := Twitter.text x;
              date := Twitter.created_at x;
              url := "https://twitter.com/twitter/status/" ++ Twitter.id x;
              source := "twitter" |}) /\
  (exists suf, fst (FetcherTwitter.fetch ok api kw fault db) = (db ++ suf)%list /\
     forall p, List.In p suf -> exists x, List.In x page /\
       ~ List.In ("twitter-" ++ Twitter.id x) (ids db) /\
       p = {| Store.id := "twitter-" ++ Twitter.id x; title := Twitter.text x;
              date := Twitter.created_at x;
              url := "https://twitter.com/twitter/status/" ++ Twitter.id x;
              source := "twitter" |}).
Proof.
  intros Hapi. unfold Twitter.fetch, FetcherTwitter.fetch, Twitter.fetch_twitter_api.
  destruct (fault_error ok); simpl;
    [split; exists []; rewrite app_nil_r; split; [reflexivity | intros p []| reflexivity | intros p []] |].
  rewrite Hapi. simpl. split.
  - destruct (for_each_push_total (Twitter.filter_item (ids db)) page
                (twitter_filter_item_no_panic _)) as [l Hl].
    rewrite Hl.
    destruct (batch_rows_from_pushes _ _ _ InsertPlain fault db Hl) as (suf & Hs & Hp).
    exists suf. split; [exact Hs |]. intros p Hin.
    destruct (Hp p Hin) as (x & Hx & Hf). exists x. split; [exact Hx |].
    unfold Twitter.filter_item in Hf.
    destruct (contains (Twitter.text x) "RT"); [discriminate |].
    destruct (known ("twitter-" ++ Twitter.id x) (ids db)) eqn:Ek; [discriminate |].
    injection Hf as <-. apply known_false_iff in Ek. auto.
  - destruct (for_each_push_total (FetcherTwitter.filter_item (ids db)) page
                (fetcher_twitter_filter_item_no_panic _)) as [l Hl].
    rewrite Hl.
    destruct (batch_rows_from_pushes _ _ _ InsertPlain fault db Hl) as (suf & Hs & Hp).
    exists suf. split; [exact Hs |]. intros p Hin.
    destruct (Hp p Hin) as (x & Hx & Hf). exists x. split; [exact Hx |].
    unfold FetcherTwitter.filter_item in Hf.
    destruct (known ("twitter-" ++ Twitter.id x) (ids db)) eqn:Ek; [discriminate |].
    injection Hf as <-. apply known_false_iff in Ek. auto.
Qed.

(** X7. The rows a StackOverflow cycle that does not panic appends are
    built from questions of the page whose [stackoverflow-] id was not in
    the table and whose date the linked chrono accepts: id
    ["stackoverflow-" ++ link], title [state ++ " - " ++ title], the
    formatted UTC date, the link as URL and source ["stackoverflow"]. *)
Theorem stackoverflow_rows_built_from_page v ok api kw fault db qs next db' r :
  api kw None = Ok (qs, next) ->
  StackOverflow.fetch v ok api kw fault db = Some (db', r) ->
  exists suf, db' = (db ++ suf)%list /\
    forall p, List.In p suf -> exists q ymd, List.In q qs /\
      ~ List.In ("stackoverflow-" ++ StackOverflow.link q) (ids db) /\
      Chrono.timestamp_opt v (StackOverflow.creation_date q) = Some ymd /\
      p = {| Store.id := "stackoverflow-" ++ StackOverflow.link q;
             title := StackOverflow.state q ++ " - " ++ StackOverflow.title q;
             date := Chrono.date_to_string ymd;
             url := StackOverflow.link q;
             source := "stackoverflow" |}.
Proof.
  intros Hapi. unfold StackOverflow.fetch, StackOverflow.fetch_stackoverflow_api.
  destruct (fault_error ok); simpl;
    [intros H; injection H as <- _; exists []; rewrite app_nil_r; split; [reflexivity | intros p []] |].
  rewrite Hapi. simpl.
  destruct (for_each_push (StackOverflow.filter_item v (ids db)) qs) as [l |] eqn:Hl;
    [| discriminate].
  intros H; injection H as H.
  destruct (batch_rows_from_pushes _ _ _ InsertPlain fault db Hl) as (suf & Hs & Hp).
  rewrite H in Hs. simpl in Hs. exists suf. split; [exact Hs |]. intros p Hin.
  destruct (Hp p Hin) as (q & Hq & Hf). unfold StackOverflow.filter_item in Hf.
  destruct (known ("stackoverflow-" ++ StackOverflow.link q) (ids db)) eqn:Ek; [discriminate |].
  destruct (Chrono.timestamp_opt v (StackOverflow.creation_date q)) as [ymd |] eqn:Et;
    [| discriminate].
  injection Hf as <-. apply known_false_iff in Ek. exists q, ymd. auto.
Qed.

Lemma for_each_push_ext {A B : Type} (f g : A -> step B) xs :
  (forall x, List.In x xs -> f x = g x) -> for_each_push f xs = for_each_push g xs.
Proof.
  induction xs as [| x rest IH]; intros H; simpl; [reflexivity |].
  rewrite (H x (or_introl eq_refl)), IH; [reflexivity |].
  intros y Hy. apply H. right. exact Hy.
Qed.

(** X8. twitter.rs and the fetcher-twitter binary behave identically, on
    the table and in their result, whenever the search page holds no tweet
    whose text contains ["RT"]. *)
Theorem twitter_fetchers_agree_without_retweets ok api kw fault db :
  (forall page next, api kw None = Ok (page, next) ->
     Forall (fun x => contains (Twitter.text x) "RT" = false) page) ->
  Twitter.fetch ok api kw fault db = FetcherTwitter.fetch ok api kw fault db.
Proof.
  intros H. unfold Twitter.fetch, FetcherTwitter.fetch, Twitter.fetch_twitter_api.
  destruct (fault_error ok); simpl; [reflexivity |].
  destruct (api kw None) as [[page next] | e] eqn:Hapi; simpl; [| reflexivity].
  specialize (H page next eq_refl). rewrite List.Forall_forall in H.
  rewrite (for_each_push_ext (Twitter.filter_item (ids db))
             (FetcherTwitter.filter_item (ids db)) page); [reflexivity |].
  intros x Hx. unfold Twitter.filter_item, FetcherTwitter.filter_item.
  rewrite (H x Hx). reflexivity.
Qed.

Lemma for_each_push_none {A B : Type} (f : A -> step B) xs :
  for_each_push f xs = None <-> exists x, List.In x xs /\ f x = Panic.
Proof.
  induction xs as [| x rest IH]; simpl.
  - split; [discriminate | intros (y & [] & _)].
  - destruct (f x) as [| b |] eqn:E.
    + rewrite IH. split.
      * intros (y & Hy & Hf). exists y. auto.
      * intros (y & [<- | Hy] & Hf); [congruence | exists y; auto].
    + destruct (for_each_push f rest) as [l |] eqn:Er; simpl.
      * split; [discriminate |]. intros (y & [<- | Hy] & Hf); [congruence |].
        discriminate (proj2 IH (ex_intro _ y (conj Hy Hf))).
      * split; [intros _ | reflexivity]. destruct (proj1 IH eq_refl) as (y & Hy & Hf).
        exists y. auto.
    + split; [intros _; exists x; auto | reflexivity].
Qed.

(** X9. A StackOverflow cycle panics exactly when the [SELECT] succeeds,
    the search answers, and some question of the page is absent from the
    table and has a [creation_date] the linked chrono rejects; the panic
    ends the spawned task at that iteration, with the table unchanged. *)
Theorem stackoverflow_panic_ends_task v fuel k get_conn selects apis kw faults db :
  (StackOverflow.fetch v (selects k) (apis k) kw (faults k) db = None <->
     selects k = NoFault /\ exists page next, apis k kw None = Ok (page, next) /\
       exists x, List.In x page /\
         ~ List.In ("stackoverflow-" ++ StackOverflow.link x) (ids db) /\
         Chrono.timestamp_opt v (StackOverflow.creation_date x) = None) /\
  (get_conn k = true -> StackOverflow.fetch v (selects k) (apis k) kw (faults k) db = None ->
     stackoverflow_loop_from v (S fuel) k get_conn selects apis kw faults db =
       ([], Panicked, db)).
Proof.
  split.
  - unfold StackOverflow.fetch, StackOverflow.fetch_stackoverflow_api.
    destruct (selects k); simpl;
      [| split; [discriminate | intros [H _]; discriminate H]
       | split; [discriminate | intros [H _]; discriminate H]].
    destruct (apis k kw None) as [[page next] | e] eqn:Hapi; simpl.
    2:{ split; [discriminate | intros (_ & page & next & H & _); discriminate]. }
    destruct (for_each_push (StackOverflow.filter_item v (ids db)) page) as [l |] eqn:Hl.
    + split; [discriminate |]. intros (_ & page' & next' & Hp & x & Hx & Hk & Ht).
      injection Hp as <- <-.
      assert (Hn : for_each_push (StackOverflow.filter_item v (ids db)) page = None).
      { apply for_each_push_none. exists x. split; [exact Hx |].
        unfold StackOverflow.filter_item. apply known_false_iff in Hk.
        rewrite Hk, Ht. reflexivity. }
      congruence.
    + split; [intros _ | reflexivity]. split; [reflexivity |].
      exists page, next. split; [reflexivity |].
      destruct (proj1 (for_each_push_none _ _) Hl) as (x & Hx & Hf).
      exists x. split; [exact Hx |].
      unfold StackOverflow.filter_item in Hf.
      destruct (known ("stackoverflow-" ++ StackOverflow.link x) (ids db)) eqn:Ek;
        [discriminate |].
      destruct (Chrono.timestamp_opt v (StackOverflow.creation_date x)); [discriminate |].
      apply known_false_iff in Ek. auto.
  - intros Hc Hf. simpl. rewrite Hc, Hf. reflexivity.
Qed.

Lemma for_each_push_push {A B : Type} (f : A -> step B) xs x b l :
  f x = Push b -> List.In x xs -> for_each_push f xs = Some l -> List.In b l.
Proof.
  intros Hfx. revert l. induction xs as [| y rest IH]; intros l Hin Hl; [destruct Hin |].
  simpl in Hl. destruct Hin as [<- | Hin].
  - rewrite Hfx in Hl. destruct (for_each_push f rest); [| discriminate].
    injection Hl as <-. left. reflexivity.
  - destruct (f y) as [| b' |].
    + exact (IH l Hin Hl).
    + destruct (for_each_push f rest) as [l' |] eqn:Hr; [| discriminate].
      injection Hl as <-. right. exact (IH l' Hin eq_refl).
    + discriminate.
Qed.

Lemma twitter_filter_row k x p :
  Twitter.filter_item k x = Push p ->
  p = {| Store.id := "twitter-" ++ Twitter.id x; title := Twitter.text x;
         date := Twitter.created_at x;
         url := "https://twitter.com/twitter/status/" ++ Twitter.id x;
         source := "twitter" |} /\ ~ List.In ("twitter-" ++ Twitter.id x) k.
Proof.
  unfold Twitter.filter_item. destruct (contains (Twitter.text x) "RT"); [discriminate |].
  destruct (known ("twitter-" ++ Twitter.id x) k) eqn:Ek; [discriminate |].
  intros H. injection H as <-. apply known_false_iff in Ek. auto.
Qed.

(** The batch twitter.rs builds from a page with no repeated id has no
    repeated id and holds no id of the snapshot. *)
Lemma twitter_batch_fresh k page l :
  NoDup (map Twitter.id page) ->
  for_each_push (Twitter.filter_item k) page = Some l ->
  NoDup (ids l) /\ forall p, List.In p l -> ~ List.In (id p) k.
Proof.
  revert l. induction page as [| x rest IH]; intros l Hnd Hl; simpl in Hnd, Hl.
  - injection Hl as <-. split; [constructor | intros p []].
  - apply NoDup_cons in Hnd as [Hx Hnd'].
    destruct (Twitter.filter_item k x) as [| p |] eqn:Ef.
    + exact (IH l Hnd' Hl).
    + destruct (for_each_push (Twitter.filter_item k) rest) as [l' |] eqn:Hr; [| discriminate].
      simpl in Hl. injection Hl as <-.
      destruct (IH l' Hnd' eq_refl) as [Hnd'' Hfresh].
      destruct (twitter_filter_row k x p Ef) as [-> Hk].
      split.
      * unfold ids in *. simpl. constructor; [| exact Hnd''].
        intros Hin. apply list_elem_of_In, in_map_iff in Hin as (q & Hq & Hql).
        destruct (for_each_push_in _ _ _ Hr q Hql) as (y & Hy & Hfy).
        destruct (twitter_filter_row k y q Hfy) as [-> _]. simpl in Hq.
        apply (inj (String.append "twitter-")) in Hq.
        apply Hx, list_elem_of_In. rewrite <- Hq. apply in_map. exact Hy.
      * intros q [<- | Hq]; [exact Hk | exact (Hfresh q Hq)].
    + discriminate.
Qed.

(** A plain INSERT batch with no repeated id and no id of the table, on a
    healthy store, appends the whole batch. *)
Lemma exec_batch_from_plain_fresh i l db :
  NoDup (ids l) -> (forall p, List.In p l -> ~ List.In (id p) (ids db)) ->
  exec_batch_from InsertPlain no_fault i l db = ((db ++ l)%list, Ok tt).
Proof.
  revert i db. induction l as [| p rest IH]; intros i db Hnd Hf.
  - simpl. rewrite app_nil_r. reflexivity.
  - cbn [exec_batch_from]. unfold exec_row. cbn [no_fault fault_error].
    assert (Hk : known (id p) (ids db) = false)
      by (apply known_false_iff; apply Hf; left; reflexivity).
    rewrite Hk. unfold ids in Hnd. simpl in Hnd. apply NoDup_cons in Hnd as [Hp Hnd].
    rewrite IH.
    + rewrite <- app_assoc. reflexivity.
    + exact Hnd.
    + intros q Hq Hin. unfold ids in Hin. rewrite map_app in Hin.
      apply in_app_or in Hin as [Hin | [Hin | []]].
      * exact (Hf q (or_intror Hq) Hin).
      * apply Hp, list_elem_of_In. rewrite Hin. apply in_map. exact Hq.
Qed.

(** ** Further properties: the Slack handler of src/src/main.rs *)

Section SlackPosted.
Import Main.

Lemma posted_refl c : posted c c [].
Proof. split; [simpl; set_solver | split; [constructor | intros i []]]. Qed.

Lemma posted_trans c0 c1 c2 a b :
  posted c0 c1 a -> posted c1 c2 b -> posted c0 c2 (a ++ b)%list.
Proof.
  intros (-> & Hnd1 & Ha) (-> & Hnd2 & Hb). split; [| split].
  - rewrite map_app, list_to_set_app_L. set_solver.
  - rewrite map_app. apply NoDup_app. split; [exact Hnd1 | split; [| exact Hnd2]].
    intros x Hx Hx'. apply list_elem_of_In, in_map_iff in Hx' as (i & <- & Hi).
    destruct (Hb i Hi) as [Hn _]. apply Hn. apply elem_of_union_l.
    apply elem_of_list_to_set. exact Hx.
  - intros i Hi. apply in_app_or in Hi as [Hi | Hi]; [exact (Ha i Hi) |].
    destruct (Hb i Hi) as [Hn Hs]. split; [| exact Hs]. set_solver.
Qed.

Lemma filter_duplicate_items_posted c items :
  posted c (fst (filter_duplicate_items c items)) (snd (filter_duplicate_items c items)) /\
  incl (snd (filter_duplicate_items c items)) items.
Proof.
  revert c. induction items as [| item rest IH]; intros c; simpl.
  - split; [apply posted_refl | intros x []].
  - destruct (decide (cache_key item ∈ c)) as [Hin | Hnin].
    { destruct (IH c) as [H1 H2]. split; [exact H1 | intros x Hx; right; exact (H2 x Hx)]. }
    destruct (never_share item) eqn:Ens.
    { destruct (IH c) as [H1 H2]. split; [exact H1 | intros x Hx; right; exact (H2 x Hx)]. }
    destruct (IH ({[cache_key item]} ∪ c)) as [Hp Hincl].
    destruct (filter_duplicate_items ({[cache_key item]} ∪ c) rest) as [c' out] eqn:E.
    simpl in *. split.
    + assert (H0 : posted c ({[cache_key item]} ∪ c) [item]).
      { split; [simpl; set_solver | split; [apply NoDup_singleton |]].
        intros i [<- | []]. auto. }
      exact (posted_trans _ _ _ [item] out H0 Hp).
    + intros x [<- | Hx]; [left; reflexivity | right; exact (Hincl x Hx)].
Qed.

Lemma collect_twitter_posted c0 c1 acc r :
  posted c0 c1 acc ->
  posted c0 (fst (collect_twitter (c1, acc) r)) (snd (collect_twitter (c1, acc) r)) /\
  forall i, List.In i (snd (collect_twitter (c1, acc) r)) ->
    List.In i acc \/ exists t d, i = Tweet t /\ r = Ok d /\ List.In t d.
Proof.
  intros H. destruct r as [data | e]; simpl; [| split; [exact H | auto]].
  destruct (filter_duplicate_items_posted c1 (map Tweet data)) as [Hp Hincl].
  unfold filter_duplicate_twitter_items.
  destruct (filter_duplicate_items c1 (map Tweet data)) as [c' out]. simpl in *.
  split; [exact (posted_trans _ _ _ _ _ H Hp) |].
  intros i Hi. apply in_app_or in Hi as [Hi | Hi]; [left; exact Hi | right].
  apply Hincl, in_map_iff in Hi as (t & <- & Ht). exists t, data. auto.
Qed.

Lemma collect_posted c r0 r1 r2 :
  posted c (fst (collect c r0 r1 r2)) (snd (collect c r0 r1 r2)).
Proof.
  unfold collect. cbn [fold_left].
  destruct (collect_twitter_posted c c [] r0 (posted_refl c)) as [H0 _].
  destruct (collect_twitter (c, []) r0) as [c1 acc1]. simpl in H0.
  destruct (collect_twitter_posted c c1 acc1 r1 H0) as [H1 _].
  destruct (collect_twitter (c1, acc1) r1) as [c2 acc2]. simpl in H1.
  destruct r2 as [qs | e]; [| exact H1].
  destruct (filter_duplicate_items_posted c2 (map Question qs)) as [Hp _].
  unfold filter_duplicate_stack_overflow_items.
  destruct (filter_duplicate_items c2 (map Question qs)) as [c' out]. simpl in *.
  exact (posted_trans _ _ _ _ _ H1 Hp).
Qed.

End SlackPosted.

(** X10. One call of the Slack handler posts no two items with the same
    cache key (even when both Twitter searches return the same tweet),
    posts only items absent from the cache and not [never_share], each
    taken from one of the three responses, and leaves the cache exactly as
    the old cache plus the posted keys: skipped items are not cached. *)
Theorem slack_posts_distinct_fresh_items c r0 r1 r2 :
  let '(c', items) := Main.collect c r0 r1 r2 in
  c' = (list_to_set (map Main.cache_key items) ∪ c) /\
  NoDup (map Main.cache_key items) /\
  (forall i, List.In i items ->
     (Main.cache_key i ∉ c) /\ Main.never_share i = false /\
     ((exists t d, i = Main.Tweet t /\ (r0 = Ok d \/ r1 = Ok d) /\ List.In t d) \/
      (exists q qs, i = Main.Question q /\ r2 = Ok qs /\ List.In q qs))).
Proof.
  unfold Main.collect. cbn [fold_left].
  destruct (collect_twitter_posted c c [] r0 (posted_refl c)) as [H0 O0].
  destruct (Main.collect_twitter (c, []) r0) as [c1 acc1] eqn:E0. simpl in H0, O0.
  destruct (collect_twitter_posted c c1 acc1 r1 H0) as [H1 O1].
  destruct (Main.collect_twitter (c1, acc1) r1) as [c2 acc2] eqn:E1. simpl in H1, O1.
  assert (Hor : forall i, List.In i acc2 ->
    exists t d, i = Main.Tweet t /\ (r0 = Ok d \/ r1 = Ok d) /\ List.In t d).
  { intros i Hi. destruct (O1 i Hi) as [Hi' | (t & d & -> & -> & Ht)].
    - destruct (O0 i Hi') as [[] | (t & d & -> & -> & Ht)]. exists t, d. auto.
    - exists t, d. auto. }
  assert (Hfin : forall c' items, posted c c' items ->
    (forall i, List.In i items ->
       (exists t d, i = Main.Tweet t /\ (r0 = Ok d \/ r1 = Ok d) /\ List.In t d) \/
       (exists q qs, i = Main.Question q /\ r2 = Ok qs /\ List.In q qs)) ->
    c' = (list_to_set (map Main.cache_key items) ∪ c) /\
    NoDup (map Main.cache_key items) /\
    (forall i, List.In i items ->
       (Main.cache_key i ∉ c) /\ Main.never_share i = false /\
       ((exists t d, i = Main.Tweet t /\ (r0 = Ok d \/ r1 = Ok d) /\ List.In t d) \/
        (exists q qs, i = Main.Question q /\ r2 = Ok qs /\ List.In q qs)))).
  { intros c' items (Hc & Hnd & Hf) Ho. split; [exact Hc | split; [exact Hnd |]].
    intros i Hi. destruct (Hf i Hi) as [Ha Hb]. auto. }
  destruct r2 as [qs | e].
  - destruct (filter_duplicate_items_posted c2 (map Main.Question qs)) as [Hp Hincl].
    unfold Main.filter_duplicate_stack_overflow_items.
    destruct (Main.filter_duplicate_items c2 (map Main.Question qs)) as [c' out]. simpl in *.
    apply Hfin; [exact (posted_trans _ _ _ _ _ H1 Hp) |].
    intros i Hi. apply in_app_or in Hi as [Hi | Hi]; [left; exact (Hor i Hi) | right].
    apply Hincl, in_map_iff in Hi as (q & <- & Hq). exists q, qs. auto.
  - apply Hfin; [exact H1 |]. intros i Hi. left. exact (Hor i Hi).
Qed.

(** X11. Cache keys never collide across kinds: equal keys come from two
    tweets with the same id or two questions with the same link. *)
Theorem cache_keys_injective i j :
  Main.cache_key i = Main.cache_key j ->
  match i, j with
  | Main.Tweet t, Main.Tweet t' => Main.id t = Main.id t'
  | Main.Question q, Main.Question q' => Main.link q = Main.link q'
  | _, _ => False
  end.
Proof.
  destruct i as [t | q], j as [t' | q']; simpl; intros H.
  - exact (inj (String.append "twitter-") _ _ H).
  - inversion H.
  - inversion H.
  - exact (inj (String.append "stack-overflow-") _ _ H).
Qed.

(** X12. The Slack message text is empty exactly when no item is posted;
    when the three searches all fail, nothing is posted, the text is empty
    and the cache is unchanged. *)
Theorem slack_text_empty_iff_nothing_posted c r0 r1 r2 slack_ok :
  let '(c', items) := Main.collect c r0 r1 r2 in
  let '(_, _, text, _) := Main.root c r0 r1 r2 slack_ok in
  (text = "" <-> items = []) /\
  (forall e0 e1 e2, r0 = Err e0 -> r1 = Err e1 -> r2 = Err e2 -> c' = c /\ items = []).
Proof.
  unfold Main.root. destruct (Main.collect c r0 r1 r2) as [c' items] eqn:E. split.
  - destruct items as [| i rest]; [split; reflexivity |].
    split; [| discriminate]. intros H. exfalso.
    destruct rest; simpl in H; discriminate H.
  - intros e0 e1 e2 -> -> ->. unfold Main.collect in E. simpl in E.
    injection E as <- <-. split; reflexivity.
Qed.

(** X13. On a search page with no repeated tweet id, a tweet that starts
    with ["@"], has no ["RT"] and whose id is new is stored by twitter.rs
    when the store raises no error; but the Slack handler [root] of
    main.rs never posts it: whatever the cache and the three search
    results, it is not among the collected items the Slack text is built
    from. *)
Theorem replies_stored_but_never_posted api kw db page next x :
  api kw None = Ok (page, next) ->
  List.In x page -> NoDup (map Twitter.id page) ->
  starts_with (Twitter.text x) "@" = true ->
  contains (Twitter.text x) "RT" = false ->
  ~ List.In ("twitter-" ++ Twitter.id x) (ids db) ->
  snd (Twitter.fetch NoFault api kw no_fault db) = Ok tt /\
  List.In {| Store.id := "twitter-" ++ Twitter.id x; title := Twitter.text x;
             date := Twitter.created_at x;
             url := "https://twitter.com/twitter/status/" ++ Twitter.id x;
             source := "twitter" |} (fst (Twitter.fetch NoFault api kw no_fault db)) /\
  forall c r0 r1 r2 slack_ok,
    let '(_, _, text, _) := Main.root c r0 r1 r2 slack_ok in
    let '(_, items) := Main.collect c r0 r1 r2 in
    ~ List.In (Main.Tweet (Main.mkTweet (Twitter.id x) (Twitter.text x))) items /\
    text = Main.join_lines (map (fun i => "• " ++ Main.message i) items).
Proof.
  intros Hapi Hx Hnd Hat Hrt Hk.
  assert (Hrow : Twitter.filter_item (ids db) x =
    Push {| Store.id := "twitter-" ++ Twitter.id x; title := Twitter.text x;
            date := Twitter.created_at x;
            url := "https://twitter.com/twitter/status/" ++ Twitter.id x;
            source := "twitter" |}).
  { unfold Twitter.filter_item. rewrite Hrt. apply known_false_iff in Hk. rewrite Hk.
    reflexivity. }
  destruct (for_each_push_total (Twitter.filter_item (ids db)) page
              (twitter_filter_item_no_panic _)) as [l Hl].
  destruct (twitter_batch_fresh _ _ _ Hnd Hl) as [Hndl Hfr].
  assert (Hf : Twitter.fetch NoFault api kw no_fault db = ((db ++ l)%list, Ok tt)).
  { unfold Twitter.fetch, Twitter.fetch_twitter_api. simpl. rewrite Hapi. simpl. rewrite Hl.
    unfold exec_batch. simpl. apply exec_batch_from_plain_fresh; assumption. }
  rewrite Hf. simpl. split; [reflexivity | split].
  - apply in_or_app. right. exact (for_each_push_push _ _ _ _ _ Hrow Hx Hl).
  - intros c r0 r1 r2 slack_ok. unfold Main.root.
    pose proof (collect_posted c r0 r1 r2) as Hp.
    destruct (Main.collect c r0 r1 r2) as [c' items]. simpl in Hp.
    cbv beta iota zeta. split; [| reflexivity].
    intros Hin. destruct Hp as (_ & _ & Hp). destruct (Hp _ Hin) as [_ Hns].
    simpl in Hns. rewrite Hat, orb_true_r in Hns. discriminate.
Qed.

(** ** Witnesses of the further properties *)

Lemma web_lists_embed_rows_verbatim_witness :
  List.In (Samples.tw_row "1" "<b>hi</b>") [Samples.tw_row "1" "<b>hi</b>"] /\
  exists a b, Routes.twitter_items [Samples.tw_row "1" "<b>hi</b>"] =
    a ++ Routes.li "https://twitter.com/twitter/status/1" "<b>hi</b>" ++ b.
Proof.
  split; [left; reflexivity |].
  exact (proj1 (web_lists_embed_rows_verbatim [Samples.tw_row "1" "<b>hi</b>"]
                  (Samples.tw_row "1" "<b>hi</b>") (or_introl eq_refl)) eq_refl).
Defined.

Lemma stackoverflow_row_renders_state_witness :
  StackOverflow.filter_item Chrono.From_0_4_20 [] Samples.so_question = Push Samples.so_row /\
  Routes.stackoverflow_items [Samples.so_row] =
    Routes.li "https://stackoverflow.com/questions/2"
      ("🔄" ++ " - " ++ Routes.stackoverflow_title "Why?").
Proof.
  split; [vm_compute; reflexivity |].
  exact (stackoverflow_row_renders_state Chrono.From_0_4_20 [] Samples.so_question Samples.so_row
           ltac:(vm_compute; reflexivity)).
Defined.

Lemma twitter_rows_built_from_page_witness :
  Samples.two_tweets "kw" None = Ok ([Samples.tw "1" "hello"; Samples.tw "2" "world"], None) /\
  exists suf, fst (Twitter.fetch NoFault Samples.two_tweets "kw" no_fault []) = ([] ++ suf)%list /\
    forall p, List.In p suf -> exists x,
      List.In x [Samples.tw "1" "hello"; Samples.tw "2" "world"] /\
      contains (Twitter.text x) "RT" = false /\
      ~ List.In ("twitter-" ++ Twitter.id x) (ids []) /\
      p = {| Store.id := "twitter-" ++ Twitter.id x; title := Twitter.text x;
             date := Twitter.created_at x;
             url := "https://twitter.com/twitter/status/" ++ Twitter.id x;
             source := "twitter" |}.
Proof.
  split; [reflexivity |].
  exact (proj1 (twitter_rows_built_from_page NoFault Samples.two_tweets "kw" no_fault []
                  [Samples.tw "1" "hello"; Samples.tw "2" "world"] None eq_refl)).
Defined.

Lemma stackoverflow_rows_built_from_page_witness :
  Samples.one_question "kw" None = Ok ([Samples.so_question], None) /\
  StackOverflow.fetch Chrono.From_0_4_20 NoFault Samples.one_question "kw" no_fault [] =
    Some ([Samples.so_row], Ok tt) /\
  exists suf, [Samples.so_row] = ([] ++ suf)%list /\
    forall p, List.In p suf -> exists q ymd, List.In q [Samples.so_question] /\
      ~ List.In ("stackoverflow-" ++ StackOverflow.link q) (ids []) /\
      Chrono.timestamp_opt Chrono.From_0_4_20 (StackOverflow.creation_date q) = Some ymd /\
      p = {| Store.id := "stackoverflow-" ++ StackOverflow.link q;
             title := StackOverflow.state q ++ " - " ++ StackOverflow.title q;
             date := Chrono.date_to_string ymd;
             url := StackOverflow.link q;
             source := "stackoverflow" |}.
Proof.
  assert (Hf : StackOverflow.fetch Chrono.From_0_4_20 NoFault Samples.one_question "kw" no_fault [] =
                 Some ([Samples.so_row], Ok tt)) by (vm_compute; reflexivity).
  split; [reflexivity | split; [exact Hf |]].
  exact (stackoverflow_rows_built_from_page Chrono.From_0_4_20 NoFault Samples.one_question "kw" no_fault []
           [Samples.so_question] None [Samples.so_row] (Ok tt) eq_refl Hf).
Defined.

Lemma twitter_fetchers_agree_without_retweets_witness :
  Twitter.fetch NoFault Samples.two_tweets "kw" no_fault [] =
  FetcherTwitter.fetch NoFault Samples.two_tweets "kw" no_fault [].
Proof.
  apply twitter_fetchers_agree_without_retweets.
  intros page next H. injection H as <- _.
  repeat constructor.
Defined.

Lemma cache_keys_injective_witness :
  Main.cache_key (Main.Tweet (Main.mkTweet "1" "a")) =
    Main.cache_key (Main.Tweet (Main.mkTweet "1" "b")) /\ "1" = "1".
Proof.
  split; [reflexivity |].
  exact (cache_keys_injective (Main.Tweet (Main.mkTweet "1" "a"))
           (Main.Tweet (Main.mkTweet "1" "b")) eq_refl).
Defined.

Lemma replies_stored_but_never_posted_witness :
  Samples.reply_page "kw" None = Ok ([Samples.tw "1" "@bob hi"], None) /\
  starts_with "@bob hi" "@" = true /\ contains "@bob hi" "RT" = false /\
  snd (Twitter.fetch NoFault Samples.reply_page "kw" no_fault []) = Ok tt /\
  List.In (Samples.tw_row "1" "@bob hi")
    (fst (Twitter.fetch NoFault Samples.reply_page "kw" no_fault [])) /\
  forall c r0 r1 r2 slack_ok,
    let '(_, _, text, _) := Main.root c r0 r1 r2 slack_ok in
    let '(_, items) := Main.collect c r0 r1 r2 in
    ~ List.In (Main.Tweet (Main.mkTweet "1" "@bob hi")) items /\
    text = Main.join_lines (map (fun i => "• " ++ Main.message i) items).
Proof.
  split; [reflexivity | split; [reflexivity | split; [reflexivity |]]].
  exact (replies_stored_but_never_posted Samples.reply_page "kw" [] [Samples.tw "1" "@bob hi"]
           None (Samples.tw "1" "@bob hi") eq_refl (or_introl eq_refl)
           ltac:(repeat constructor; set_solver) eq_refl eq_refl (fun H => H)).
Defined.
